(** * grammar-builder: the rule model and its GBNF serializer

    A shallow embedding of the [Grammar] class of grammar-builder (the
    revision with cardinality support): the rule nodes, the [RuleBuilder]
    combinators, the rule registry with [define] / [root] / [build], and the
    recursive [parser] that renders a rule as GBNF text.

    JavaScript strings are modelled by [string]; the registry, a plain
    JavaScript object used as a map, by an association list together with
    the enumeration order of [Object.entries]; [console.warn] and [throw] by
    a small effect monad.  lodash's [kebabCase] is not part of the
    repository and is a parameter of the serializer. *)

From Stdlib Require Import String Ascii List Bool Arith NArith ZArith Lia.
From Stdlib Require Import Permutation Sorted.
Import ListNotations.
Local Open Scope list_scope.
Local Open Scope string_scope.

(** ** JavaScript strings *)

Module Js.

(** The double-quote character, code unit 34. *)
Definition dquote_char : ascii :=
  Ascii false true false false false true false false.

Definition dquote : string := String dquote_char EmptyString.

(** The line feed, code unit 10. *)
Definition newline : string :=
  String (Ascii false true false true false false false false) EmptyString.

(** [s.startsWith(p)] *)
Definition startsWith (s p : string) : bool :=
  String.eqb (substring 0 (String.length p) s) p.

(** [s.endsWith(p)]: the last [|p|] code units of [s] are [p]. *)
Definition endsWith (s p : string) : bool :=
  Nat.leb (String.length p) (String.length s)
  && String.eqb
       (substring (String.length s - String.length p) (String.length p) s) p.

(** Relative index resolution shared by [slice]'s two arguments. *)
Definition relative_index (len i : Z) : Z :=
  if (i <? 0)%Z then Z.max (len + i) 0 else Z.min i len.

(** [s.slice(start, end)] *)
Definition slice (s : string) (start end_ : Z) : string :=
  let len := Z.of_nat (String.length s) in
  let from := relative_index len start in
  let to := relative_index len end_ in
  substring (Z.to_nat from) (Z.to_nat (Z.max (to - from) 0)) s.

(** [s.slice(start)]: the end defaults to the length. *)
Definition slice_from (s : string) (start : Z) : string :=
  slice s start (Z.of_nat (String.length s)).

(** [xs.join(sep)] on an array of strings. *)
Fixpoint join (sep : string) (xs : list string) : string :=
  match xs with
  | [] => EmptyString
  | [x] => x
  | x :: rest => x ++ sep ++ join sep rest
  end.

(** [s.replaceAll(pat, by)] for a one-character pattern. *)
Fixpoint replaceAll (c : ascii) (by_ : string) (s : string) : string :=
  match s with
  | EmptyString => EmptyString
  | String a rest =>
      if Ascii.eqb a c then by_ ++ replaceAll c by_ rest
      else String a (replaceAll c by_ rest)
  end.

End Js.

(** ** The rule model *)

Module ruleCardinality.
Inductive t : Set := zeroOrMore | oneOrMore | optional.

Definition eqb (a b : t) : bool :=
  match a, b with
  | zeroOrMore, zeroOrMore | oneOrMore, oneOrMore | optional, optional => true
  | _, _ => false
  end.
End ruleCardinality.

(** A rule is one of the four tagged objects; the optional
    [ruleCardinalityKey] property is the [option] field.  A part of a
    sequence or of a oneOf is [string | rule], here [string + rule]. *)
#[local] Unset Elimination Schemes.
Inductive rule : Type :=
| sequenceRuleType (parts : list (string + rule)) (cardinality : option ruleCardinality.t)
| oneOfRuleType (parts : list (string + rule)) (cardinality : option ruleCardinality.t)
| refRuleType (id : string) (cardinality : option ruleCardinality.t)
| rangeRuleType (range : string) (cardinality : option ruleCardinality.t).
#[local] Set Elimination Schemes.

(** [rule[ruleCardinalityKey]] *)
Definition ruleCardinalityKey (r : rule) : option ruleCardinality.t :=
  match r with
  | sequenceRuleType _ c | oneOfRuleType _ c | refRuleType _ c | rangeRuleType _ c => c
  end.

(** [{ ...rule, [ruleCardinalityKey]: c }] *)
Definition with_cardinality (r : rule) (c : ruleCardinality.t) : rule :=
  match r with
  | sequenceRuleType parts _ => sequenceRuleType parts (Some c)
  | oneOfRuleType parts _ => oneOfRuleType parts (Some c)
  | refRuleType id _ => refRuleType id (Some c)
  | rangeRuleType range _ => rangeRuleType range (Some c)
  end.

(** ** Induction over rules *)

Section RuleInduction.

Variable P : rule -> Prop.

Definition part_holds (part : string + rule) : Prop :=
  match part with
  | inl _ => True
  | inr r => P r
  end.

Hypothesis H_sequence :
  forall parts c, Forall part_holds parts -> P (sequenceRuleType parts c).
Hypothesis H_oneOf :
  forall parts c, Forall part_holds parts -> P (oneOfRuleType parts c).
Hypothesis H_ref : forall id c, P (refRuleType id c).
Hypothesis H_range : forall range c, P (rangeRuleType range c).

Fixpoint rule_induction (r : rule) : P r :=
  let parts_hold :=
    fix go (l : list (string + rule)) : Forall part_holds l :=
      match l with
      | [] => Forall_nil _
      | part :: l' =>
          Forall_cons part
            (match part return part_holds part with
             | inl _ => I
             | inr r' => rule_induction r'
             end)
            (go l')
      end in
  match r with
  | sequenceRuleType parts c => H_sequence parts c (parts_hold parts)
  | oneOfRuleType parts c => H_oneOf parts c (parts_hold parts)
  | refRuleType id c => H_ref id c
  | rangeRuleType range c => H_range range c
  end.

End RuleInduction.

(** ** The serializer *)

Section Serializer.

(** lodash's [kebabCase]. *)
Variable kebabCase : string -> string.

(** The immediately-invoked switch of [parser]. *)
Definition cardinalityChar (c : option ruleCardinality.t) : string :=
  match c with
  | Some ruleCardinality.zeroOrMore => "*"
  | Some ruleCardinality.oneOrMore => "+"
  | Some ruleCardinality.optional => "?"
  | None => EmptyString
  end.

(** JavaScript truthiness of a string: non-empty. *)
Definition truthy (s : string) : bool :=
  match s with EmptyString => false | _ => true end.

Fixpoint parser_rule (r : rule) : string :=
  let parser_part (part : string + rule) : string :=
    match part with
    | inl s => Js.dquote ++ s ++ Js.dquote
    | inr r' => parser_rule r'
    end in
  match r with
  | sequenceRuleType parts c =>
      let resultStr := Js.join " " (map parser_part parts) in
      if truthy (cardinalityChar c)
      then "(" ++ resultStr ++ ")" ++ cardinalityChar c
      else resultStr
  | oneOfRuleType parts c =>
      ("(" ++ Js.join " | " (map parser_part parts) ++ ")") ++ cardinalityChar c
  | refRuleType id c => kebabCase id ++ cardinalityChar c
  | rangeRuleType range c => range ++ cardinalityChar c
  end.

(** [parser(rule: string | rule)] *)
Definition parser (x : string + rule) : string :=
  match x with
  | inl s => Js.dquote ++ s ++ Js.dquote
  | inr r => parser_rule r
  end.

End Serializer.

(** ** Effects: [throw] and [console.warn] *)

(** A thrown [new Error(message)]. *)
Record Error : Type := { message : string }.

(** How a call completes. *)
Inductive completion (A : Type) : Type :=
| Normal (value : A)
| Throw (e : Error).
Arguments Normal {A} value.
Arguments Throw {A} e.

(** [process.env]: [NODE_ENV] is a string or [undefined]. *)
Record Env : Type := { NODE_ENV : option string }.

(** [process.env.NODE_ENV !== "production"] *)
Definition not_production (env : Env) : bool :=
  match NODE_ENV env with
  | Some v => negb (String.eqb v "production")
  | None => true
  end.

(** A computation reads the environment, completes normally or by a throw,
    and leaves the lines it passed to [console.warn], oldest first. *)
Definition Eff (A : Type) : Type := Env -> completion A * list string.

Definition ret {A} (a : A) : Eff A := fun _ => (Normal a, []).

Definition bind {A B} (m : Eff A) (f : A -> Eff B) : Eff B :=
  fun env =>
    match m env with
    | (Normal a, w) => let (c, w') := f a env in (c, (w ++ w')%list)
    | (Throw e, w) => (Throw e, w)
    end.

Definition throw {A} (msg : string) : Eff A :=
  fun _ => (Throw {| message := msg |}, []).

Definition console_warn (msg : string) : Eff unit :=
  fun _ => (Normal tt, [msg]).

(** [if (cond && process.env.NODE_ENV !== "production") console.warn(msg)] *)
Definition warn_unless_production (cond : bool) (msg : string) : Eff unit :=
  fun env => if cond && not_production env then console_warn msg env
             else ret tt env.

Notation "x <- m ;; k" := (bind m (fun x => k))
  (at level 61, m at next level, right associativity).
Notation "m ;;; k" := (bind m (fun _ => k))
  (at level 61, right associativity).

(** ** The rule builder *)

Record RuleBuilder : Type := {
  sequence : list (string + rule) -> rule;
  oneOf : list (string + rule) -> rule;
  ref : string -> rule;
  range : string -> Eff rule;
  oneOrMore : rule -> Eff rule;
  zeroOrMore : rule -> Eff rule;
  optional : rule -> Eff rule
}.

Definition range_error (range : string) : string :=
  "Range must be in the form of a range literal (e.g. [0-9]), received: "
  ++ range.

(** The guard of [range]. *)
Definition range_literal (range : string) : bool :=
  Js.startsWith range "["
  && (Js.endsWith range "]" || Js.endsWith range "]?"
      || Js.endsWith range "]*" || Js.endsWith range "]+").

(** The immediately-invoked switch of [range]: the properties that are
    spread over [{ [ruleType]: "range", range }]. *)
Definition range_cardinality (range : string)
  : option (string * ruleCardinality.t) :=
  let lastChar := Js.slice_from range (-1) in
  if String.eqb lastChar "?"
  then Some (Js.slice range 0 (-1), ruleCardinality.optional)
  else if String.eqb lastChar "*"
  then Some (Js.slice range 0 (-1), ruleCardinality.zeroOrMore)
  else if String.eqb lastChar "+"
  then Some (Js.slice range 0 (-1), ruleCardinality.oneOrMore)
  else None.

Definition cardinality_warning (name : string) : string :=
  "Rule had a different cardinality than " ++ Js.dquote ++ name ++ Js.dquote
  ++ ", which was overwritten".

(** [rule[ruleCardinalityKey] !== undefined &&
     rule[ruleCardinalityKey] !== ruleCardinality.oneOrMore],
    the test the three cardinality combinators share. *)
Definition differs_from_oneOrMore (r : rule) : bool :=
  match ruleCardinalityKey r with
  | None => false
  | Some c => negb (ruleCardinality.eqb c ruleCardinality.oneOrMore)
  end.

Definition builder : RuleBuilder := {|
  sequence := fun parts => sequenceRuleType parts None;
  oneOf := fun options => oneOfRuleType options None;
  ref := fun key => refRuleType key None;
  range := fun range =>
    if negb (range_literal range) then throw (range_error range)
    else
      match range_cardinality range with
      | Some (body, c) => ret (rangeRuleType body (Some c))
      | None => ret (rangeRuleType range None)
      end;
  oneOrMore := fun rule =>
    warn_unless_production (differs_from_oneOrMore rule)
      (cardinality_warning "oneOrMore") ;;;
    ret (with_cardinality rule ruleCardinality.oneOrMore);
  zeroOrMore := fun rule =>
    warn_unless_production (differs_from_oneOrMore rule)
      (cardinality_warning "zeroOrMore") ;;;
    ret (with_cardinality rule ruleCardinality.zeroOrMore);
  optional := fun rule =>
    warn_unless_production (differs_from_oneOrMore rule)
      (cardinality_warning "optional") ;;;
    ret (with_cardinality rule ruleCardinality.optional)
|}.

(** ** Plain JavaScript objects used as maps *)

Module JsObject.
Section Properties.
Context {V : Type}.

(** The own enumerable string-keyed properties, in the order in which they
    were created. *)
Definition t : Type := list (string * V).

Definition empty : t := [].

(** [Object.hasOwn(o, key)] *)
Definition hasOwn (o : t) (key : string) : bool :=
  existsb (fun e => String.eqb (fst e) key) o.

Fixpoint update (key : string) (v : V) (o : t) : t :=
  match o with
  | [] => [(key, v)]
  | (k, v') :: rest =>
      if String.eqb k key then (key, v) :: rest
      else (k, v') :: update key v rest
  end.

(** [o[key] = v] with [v] an object.  An existing property keeps its place,
    a new one is created last.  The key [__proto__] reaches the setter
    inherited from [Object.prototype], which replaces the prototype and
    creates no own property. *)
Definition set (key : string) (v : V) (o : t) : t :=
  if String.eqb key "__proto__" then o else update key v o.

Definition digit_value (c : ascii) : option N :=
  let n := N_of_ascii c in
  if ((48 <=? n) && (n <=? 57))%N then Some (n - 48)%N else None.

Fixpoint digits_value (acc : N) (s : string) : option N :=
  match s with
  | EmptyString => Some acc
  | String c rest =>
      match digit_value c with
      | Some d => digits_value (10 * acc + d)%N rest
      | None => None
      end
  end.

(** An array index is a canonical numeric string (decimal digits, no
    leading zero except for zero itself) whose value is below 2^32 - 1. *)
Definition array_index (key : string) : option N :=
  match key with
  | EmptyString => None
  | String c rest =>
      if Ascii.eqb c "0" && negb (String.eqb rest EmptyString) then None
      else
        match digits_value 0 key with
        | Some n => if (n <? 4294967295)%N then Some n else None
        | None => None
        end
  end.

Definition is_array_index (key : string) : bool :=
  match array_index key with Some _ => true | None => false end.

Fixpoint insert_index (n : N) (e : string * V) (l : list (N * (string * V)))
  : list (N * (string * V)) :=
  match l with
  | [] => [(n, e)]
  | (m, e') :: rest =>
      if (n <=? m)%N then (n, e) :: l else (m, e') :: insert_index n e rest
  end.

(** The properties whose key is an array index, by ascending index. *)
Fixpoint index_entries (o : t) : list (N * (string * V)) :=
  match o with
  | [] => []
  | (k, v) :: rest =>
      match array_index k with
      | Some n => insert_index n (k, v) (index_entries rest)
      | None => index_entries rest
      end
  end.

(** The other properties, in creation order. *)
Definition string_entries (o : t) : t :=
  filter (fun e => negb (is_array_index (fst e))) o.

(** [Object.entries(o)]: array-index keys first, in ascending numeric
    order, then the remaining string keys in creation order. *)
Definition entries (o : t) : list (string * V) :=
  (map snd (index_entries o) ++ string_entries o)%list.

End Properties.
Arguments t V : clear implicits.
End JsObject.

(** ** The grammar *)

Record Grammar : Type := { rules : JsObject.t rule }.

(** [new Grammar()] *)
Definition new_Grammar : Grammar := {| rules := JsObject.empty |}.

(** What a method call leaves behind: its completion, the receiver after
    the call, and the lines passed to [console.warn]. *)
Record Outcome (A : Type) : Type := {
  completed : completion A;
  this_after : Grammar;
  console : list string
}.
Arguments completed {A} _.
Arguments this_after {A} _.
Arguments console {A} _.

Definition Method (A : Type) : Type := Grammar -> Env -> Outcome A.

(** Fluent chaining: [o.m(...)] where [o] is the outcome of the previous
    call, which returned its receiver. *)
Definition chain {A} (o : Outcome Grammar) (m : Method A) (env : Env)
  : Outcome A :=
  match completed o with
  | Normal g =>
      let o' := m g env in
      {| completed := completed o';
         this_after := this_after o';
         console := (console o ++ console o')%list |}
  | Throw e =>
      {| completed := Throw e;
         this_after := this_after o;
         console := console o |}
  end.

Definition overwrite_warning (key : string) : string :=
  "Rule " ++ Js.dquote ++ key ++ Js.dquote
  ++ " was already defined, but is being overwritten".

Definition define (key : string) (rule : RuleBuilder -> Eff rule)
  : Method Grammar :=
  fun this env =>
    if String.eqb key "root" then
      {| completed :=
           Throw {| message := "Cannot define a root rule, use root() instead" |};
         this_after := this;
         console := [] |}
    else if JsObject.hasOwn (rules this) "root" then
      {| completed :=
           Throw {| message := "Cannot extend a grammar with a root rule" |};
         this_after := this;
         console := [] |}
    else
      let w :=
        if JsObject.hasOwn (rules this) key && not_production env
        then [overwrite_warning key] else [] in
      match rule builder env with
      | (Normal r, w') =>
          let this' := {| rules := JsObject.set key r (rules this) |} in
          {| completed := Normal this';
             this_after := this';
             console := (w ++ w')%list |}
      | (Throw e, w') =>
          {| completed := Throw e;
             this_after := this;
             console := (w ++ w')%list |}
      end.

Definition root (rule : RuleBuilder -> Eff rule) : Method Grammar :=
  fun this env =>
    match rule builder env with
    | (Normal r, w) =>
        let this' := {| rules := JsObject.set "root" r (rules this) |} in
        {| completed := Normal this'; this_after := this'; console := w |}
    | (Throw e, w) =>
        {| completed := Throw e; this_after := this; console := w |}
    end.

Section Build.

Variable kebabCase : string -> string.

(** One element of the array that [build] joins. *)
Definition build_line (entry : string * rule) : string :=
  let (ruleName, rule) := entry in
  (kebabCase ruleName ++ " ::= ") ++ parser kebabCase (inr rule).

Definition build : Method string :=
  fun this env =>
    if negb (JsObject.hasOwn (rules this) "root") then
      {| completed := Throw {| message := "No root rule defined" |};
         this_after := this;
         console := [] |}
    else
      {| completed :=
           Normal (Js.join Js.newline
                     (map build_line (JsObject.entries (rules this))));
         this_after := this;
         console := [] |}.

End Build.

(** ** Concrete environments, names and grammars *)

(** A stand-in for lodash's [kebabCase], adequate on ASCII identifiers
    written in camelCase without runs of capitals.  It only serves to run
    the model on concrete grammars; every general statement below holds for
    an arbitrary [kebabCase]. *)
Module KebabAscii.

Inductive class : Set := Lower | Upper | Digit | Other.

Definition classify (c : ascii) : class :=
  let n := nat_of_ascii c in
  if (97 <=? n)%nat && (n <=? 122)%nat then Lower
  else if (65 <=? n)%nat && (n <=? 90)%nat then Upper
  else if (48 <=? n)%nat && (n <=? 57)%nat then Digit
  else Other.

Definition lower (c : ascii) : ascii :=
  match classify c with
  | Upper => ascii_of_nat (nat_of_ascii c + 32)
  | _ => c
  end.

Definition boundary (prev k : class) : bool :=
  match prev, k with
  | Other, _ => true
  | Lower, Upper | Digit, Upper => true
  | Lower, Digit | Upper, Digit => true
  | Digit, Lower => true
  | _, _ => false
  end.

Fixpoint go (prev : class) (emitted : bool) (s : string) : string :=
  match s with
  | EmptyString => EmptyString
  | String c rest =>
      match classify c with
      | Other => go Other emitted rest
      | k =>
          (if boundary prev k && emitted then "-" else EmptyString)
          ++ String (lower c) (go k true rest)
      end
  end.

Definition kebabCase (s : string) : string := go Other false s.

End KebabAscii.

(** ** The statements of the specification

    Definitions that spell out the words of the specification, to be
    compared with what the code computes. *)

Module Spec.

(** "[s] begins with [p]" *)
Definition begins_with (s p : string) : Prop := exists rest, s = p ++ rest.

(** "[s] ends with [p]" *)
Definition ends_with (s p : string) : Prop := exists front, s = front ++ p.

(** "[pattern] begins with [[] and ends with []], []?], []*] or []+]" *)
Definition well_formed_range (pattern : string) : Prop :=
  begins_with pattern "["
  /\ (ends_with pattern "]" \/ ends_with pattern "]?"
      \/ ends_with pattern "]*" \/ ends_with pattern "]+").

(** The glyph of a cardinality: [*], [+], [?]. *)
Definition glyph (c : ruleCardinality.t) : string :=
  match c with
  | ruleCardinality.zeroOrMore => "*"
  | ruleCardinality.oneOrMore => "+"
  | ruleCardinality.optional => "?"
  end.

(** "a double-quoted string with embedded double quotes
    backslash-escaped": what the first, string-building revision of the
    builder computed with [replaceAll]. *)
Definition escaped_literal (s : string) : string :=
  Js.dquote ++ Js.replaceAll Js.dquote_char ("\" ++ Js.dquote) s ++ Js.dquote.

(** The number of occurrences of a character. *)
Fixpoint occurrences (c : ascii) (s : string) : nat :=
  match s with
  | EmptyString => 0
  | String a rest => (if Ascii.eqb a c then 1 else 0) + occurrences c rest
  end.

End Spec.

(** The parts of a sequence with every nested non-empty sequence that has no
    cardinality replaced by its own parts, at every depth. *)
Fixpoint flatten_rule (r : rule) : list (string + rule) :=
  match r with
  | sequenceRuleType ((_ :: _) as parts) None =>
      flat_map (fun part =>
                  match part with
                  | inl s => [inl s]
                  | inr r' => flatten_rule r'
                  end) parts
  | _ => [inr r]
  end.

Definition flatten_part (part : string + rule) : list (string + rule) :=
  match part with
  | inl s => [inl s]
  | inr r => flatten_rule r
  end.

(** A part that is a non-empty sequence without cardinality. *)
Definition plain_sequence (part : string + rule) : bool :=
  match part with
  | inr (sequenceRuleType (_ :: _) None) => true
  | _ => false
  end.

(** [r[cardinalityName](rule)], as the tests select a combinator. *)
Definition apply_cardinality (c : ruleCardinality.t) (r : RuleBuilder)
  : rule -> Eff rule :=
  match c with
  | ruleCardinality.zeroOrMore => zeroOrMore r
  | ruleCardinality.oneOrMore => oneOrMore r
  | ruleCardinality.optional => optional r
  end.

Definition dev : Env := {| NODE_ENV := None |}.
Definition production : Env := {| NODE_ENV := Some "production" |}.


(** The registry left by
    [define("b", r => r.range("[0-9]")).define("1", r => r.range("[a-z]"))
     .root(r => r.ref("b"))]. *)
Definition numeric_name_grammar : Grammar :=
  {| rules := [("b", rangeRuleType "[0-9]" None);
               ("1", rangeRuleType "[a-z]" None);
               ("root", refRuleType "b" None)] |}.

(** A literal as the tests write it in the expected output. *)
Definition quoted (s : string) : string := Js.dquote ++ s ++ Js.dquote.

(** [new Grammar().m1(...).m2(...)] with [NODE_ENV] unset. *)
Definition call {A} (m : Method A) : Outcome A := m new_Grammar dev.

Notation "o '|>' m" := (chain o m dev) (at level 50, left associativity).

(** [build()] with the stand-in [kebabCase]. *)
Definition build' : Method string := build KebabAscii.kebabCase.

(** The text the tests expect, given line by line. *)
Definition lines (ls : list string) : completion string :=
  Normal (Js.join Js.newline ls).

(** The grammar of [examples/iso8601]. *)
Definition iso8601 : Outcome Grammar :=
  call (define "singleDigit" (fun r => range r "[0-9]"))
  |> define "nonZeroDigit" (fun r => range r "[1-9]")
  |> define "dateYear"
       (fun r => ret (sequence r [inr (oneOf r [inl "19"; inl "20"]);
                                  inr (ref r "singleDigit");
                                  inr (ref r "singleDigit")]))
  |> define "dateMonth"
       (fun r => ret (oneOf r [inr (sequence r [inl "0";
                                                inr (ref r "singleDigit")]);
                               inl "11"; inl "12"]))
  |> define "dateDay"
       (fun r => ret (oneOf r [inr (sequence r [inl "0";
                                                inr (ref r "nonZeroDigit")]);
                               inr (sequence r [inr (oneOf r [inl "1"; inl "2"]);
                                                inr (ref r "singleDigit")]);
                               inl "30"; inl "31"]))
  |> define "date"
       (fun r => ret (sequence r [inr (ref r "dateYear"); inl "-";
                                  inr (ref r "dateMonth"); inl "-";
                                  inr (ref r "dateDay")])).

(** The registry left by
    [define("sequenceA", r => r.sequence("a", "b"))
     .root(r => r.sequence(r.ref("sequenceA"), "c"))], and the one before
    the call of [root]. *)
Definition sequenceA_only : Grammar :=
  {| rules := [("sequenceA", sequenceRuleType [inl "a"; inl "b"] None)] |}.

Definition sequenceA_with_root : Grammar :=
  {| rules :=
       [("sequenceA", sequenceRuleType [inl "a"; inl "b"] None);
        ("root",
         sequenceRuleType [inr (refRuleType "sequenceA" None); inl "c"] None)] |}.

(** [oneOf("f(x)", optional(sequence("a", range("[()]"))))]: leaves that
    contain parentheses of their own. *)
Definition parenthesized_leaves : rule :=
  oneOfRuleType
    [inl "f(x)";
     inr (sequenceRuleType [inl "a"; inr (rangeRuleType "[()]" None)]
                           (Some ruleCardinality.optional))]
    None.

(** ** Grammars built through the API *)

(** The grammars that [new Grammar()] followed by successful calls of
    [define] and [root] can produce. *)
Inductive reachable : Grammar -> Prop :=
| reachable_new : reachable new_Grammar
| reachable_define key rule_fn env g g' :
    reachable g ->
    completed (define key rule_fn g env) = Normal g' ->
    reachable g'
| reachable_root rule_fn env g g' :
    reachable g ->
    completed (root rule_fn g env) = Normal g' ->
    reachable g'.

(** The invariant of the registry: no name twice, and a [root] entry, once
    there, is the entry created last. *)
Definition registry_invariant (g : Grammar) : Prop :=
  NoDup (map fst (rules g))
  /\ (JsObject.hasOwn (rules g) "root" = true ->
      exists init r,
        rules g = (init ++ [("root", r)])%list
        /\ ~ In "root" (map fst init)).

(** ** The text at the leaves of a rule *)

Section Leaves.

Variable kebabCase : string -> string.

(** A test on the text that a rule contributes by itself. *)
Variable ok : string -> bool.

(** Every literal, every range pattern and every normalized reference name
    of the rule passes the test. *)
Fixpoint leaves_satisfy (r : rule) : bool :=
  match r with
  | sequenceRuleType parts _ | oneOfRuleType parts _ =>
      forallb (fun part =>
                 match part with
                 | inl s => ok s
                 | inr r' => leaves_satisfy r'
                 end) parts
  | refRuleType id _ => ok (kebabCase id)
  | rangeRuleType range _ => ok range
  end.

Definition part_leaves_satisfy (part : string + rule) : bool :=
  match part with
  | inl s => ok s
  | inr r => leaves_satisfy r
  end.

End Leaves.

(** As many opening as closing parentheses. *)
Definition parens_even (s : string) : bool :=
  Nat.eqb (Spec.occurrences "(" s) (Spec.occurrences ")" s).

(** No line feed. *)
Definition no_newline (s : string) : bool :=
  Nat.eqb (Spec.occurrences (Ascii false true false true false false false false) s) 0.

(** ** The revision without cardinality ([src/grammar.ts] of the package) *)

Module Rev1.

#[local] Unset Elimination Schemes.
Inductive rule : Type :=
| sequenceRuleType (parts : list (string + rule))
| oneOfRuleType (parts : list (string + rule))
| refRuleType (id : string)
| rangeRuleType (range : string).
#[local] Set Elimination Schemes.

Section Induction.

Variable P : rule -> Prop.

Definition part_holds (part : string + rule) : Prop :=
  match part with
  | inl _ => True
  | inr r => P r
  end.

Hypothesis H_sequence :
  forall parts, Forall part_holds parts -> P (sequenceRuleType parts).
Hypothesis H_oneOf :
  forall parts, Forall part_holds parts -> P (oneOfRuleType parts).
Hypothesis H_ref : forall id, P (refRuleType id).
Hypothesis H_range : forall range, P (rangeRuleType range).

Fixpoint rule_induction (r : rule) : P r :=
  let parts_hold :=
    fix go (l : list (string + rule)) : Forall part_holds l :=
      match l with
      | [] => Forall_nil _
      | part :: l' =>
          Forall_cons part
            (match part return part_holds part with
             | inl _ => I
             | inr r' => rule_induction r'
             end)
            (go l')
      end in
  match r with
  | sequenceRuleType parts => H_sequence parts (parts_hold parts)
  | oneOfRuleType parts => H_oneOf parts (parts_hold parts)
  | refRuleType id => H_ref id
  | rangeRuleType range => H_range range
  end.

End Induction.

Record RuleBuilder : Type := {
  sequence : list (string + rule) -> rule;
  oneOf : list (string + rule) -> rule;
  ref : string -> rule;
  range : string -> Eff rule
}.

Definition builder : RuleBuilder := {|
  sequence := fun parts => sequenceRuleType parts;
  oneOf := fun options => oneOfRuleType options;
  ref := fun key => refRuleType key;
  range := fun range =>
    if negb (range_literal range) then throw (range_error range)
    else ret (rangeRuleType range)
|}.

Section Serializer.

Variable kebabCase : string -> string.

Fixpoint parser_rule (r : rule) : string :=
  let parser_part (part : string + rule) : string :=
    match part with
    | inl s => Js.dquote ++ s ++ Js.dquote
    | inr r' => parser_rule r'
    end in
  match r with
  | sequenceRuleType parts => Js.join " " (map parser_part parts)
  | oneOfRuleType parts =>
      "(" ++ Js.join " | " (map parser_part parts) ++ ")"
  | refRuleType id => kebabCase id
  | rangeRuleType range => range
  end.

Definition parser (x : string + rule) : string :=
  match x with
  | inl s => Js.dquote ++ s ++ Js.dquote
  | inr r => parser_rule r
  end.

End Serializer.

Record Grammar : Type := { rules : JsObject.t rule }.

Section Build.

Variable kebabCase : string -> string.

Definition build_line (entry : string * rule) : string :=
  let (ruleName, rule) := entry in
  (kebabCase ruleName ++ " ::= ") ++ parser kebabCase (inr rule).

(** [build()] of this revision; it reads the registry and writes nothing. *)
Definition build (this : Grammar) : completion string :=
  if negb (JsObject.hasOwn (rules this) "root") then
    Throw {| message := "No root rule defined" |}
  else
    Normal (Js.join Js.newline
              (map build_line (JsObject.entries (rules this)))).

End Build.

End Rev1.


(** A rule of the revision without cardinality, read as a rule of the
    current revision: the same object, which has no [ruleCardinalityKey]
    property anywhere. *)
Fixpoint upgrade (r : Rev1.rule) : rule :=
  let upgrade_part (part : string + Rev1.rule) : string + rule :=
    match part with
    | inl s => inl s
    | inr r' => inr (upgrade r')
    end in
  match r with
  | Rev1.sequenceRuleType parts => sequenceRuleType (map upgrade_part parts) None
  | Rev1.oneOfRuleType parts => oneOfRuleType (map upgrade_part parts) None
  | Rev1.refRuleType id => refRuleType id None
  | Rev1.rangeRuleType range => rangeRuleType range None
  end.

Definition upgrade_part (part : string + Rev1.rule) : string + rule :=
  match part with
  | inl s => inl s
  | inr r => inr (upgrade r)
  end.

(** A change of the values of a registry, entry by entry. *)
Definition on_value {V W : Type} (f : V -> W) (entry : string * V)
  : string * W :=
  (fst entry, f (snd entry)).

Definition on_indexed {V W : Type} (f : V -> W) (ne : N * (string * V))
  : N * (string * W) :=
  (fst ne, on_value f (snd ne)).

(** The registry of an earlier revision, read as a registry of the current
    one. *)
Definition upgrade_grammar (g : Rev1.Grammar) : Grammar :=
  {| rules := map (on_value upgrade) (Rev1.rules g) |}.

(** ** Facts about the string operations *)

Module JsFacts.
Import Js.

Lemma length_app (s t : string) :
  String.length (s ++ t) = String.length s + String.length t.
Proof. induction s as [|c s IH]; simpl; [reflexivity | now rewrite IH]. Qed.

Lemma app_empty_r (s : string) : s ++ EmptyString = s.
Proof. induction s as [|c s IH]; simpl; [reflexivity | now rewrite IH]. Qed.

Lemma app_assoc (s t u : string) : (s ++ t) ++ u = s ++ t ++ u.
Proof. induction s as [|c s IH]; simpl; [reflexivity | now rewrite IH]. Qed.

Lemma substring_0_app (p r : string) :
  substring 0 (String.length p) (p ++ r) = p.
Proof.
  induction p as [|c p IH]; simpl.
  - now destruct r.
  - now rewrite IH.
Qed.

Lemma substring_0_length (p : string) : substring 0 (String.length p) p = p.
Proof. rewrite <- (app_empty_r p) at 2. apply substring_0_app. Qed.

Lemma substring_skip (r p : string) (m : nat) :
  substring (String.length r) m (r ++ p) = substring 0 m p.
Proof. induction r as [|c r IH]; simpl; [reflexivity | exact IH]. Qed.

Lemma substring_0_prefix (p s : string) :
  substring 0 (String.length p) s = p -> exists r, s = p ++ r.
Proof.
  revert s; induction p as [|c p IH]; intros s H.
  - now exists s.
  - destruct s as [|a s]; simpl in H; [discriminate|].
    injection H as -> H. destruct (IH _ H) as [r ->]. now exists r.
Qed.

Lemma substring_split (n : nat) (s : string) :
  n <= String.length s ->
  s = substring 0 n s ++ substring n (String.length s - n) s.
Proof.
  revert s; induction n as [|n IH]; intros s Hn.
  - simpl. rewrite Nat.sub_0_r.
    replace (substring 0 0 s) with EmptyString by now destruct s.
    simpl. now rewrite substring_0_length.
  - destruct s as [|c s]; simpl in *; [lia|].
    f_equal. apply IH. lia.
Qed.

(** [startsWith] decides "[s] begins with [p]". *)
Lemma startsWith_spec (s p : string) :
  startsWith s p = true <-> exists r, s = p ++ r.
Proof.
  unfold startsWith. rewrite String.eqb_eq. split.
  - apply substring_0_prefix.
  - intros [r ->]. apply substring_0_app.
Qed.

(** [endsWith] decides "[s] ends with [p]". *)
Lemma endsWith_spec (s p : string) :
  endsWith s p = true <-> exists r, s = r ++ p.
Proof.
  unfold endsWith. rewrite andb_true_iff, Nat.leb_le, String.eqb_eq. split.
  - intros [Hle Hsub].
    exists (substring 0 (String.length s - String.length p) s).
    rewrite (substring_split (String.length s - String.length p) s) at 1
      by lia.
    f_equal.
    replace (String.length s - (String.length s - String.length p))
      with (String.length p) by lia.
    exact Hsub.
  - intros [r ->]. rewrite length_app. split; [lia|].
    replace (String.length r + String.length p - String.length p)
      with (String.length r) by lia.
    rewrite substring_skip. apply substring_0_length.
Qed.

(** [s.slice(-1)] is the last code unit. *)
Lemma slice_last (body : string) (c : ascii) :
  slice_from (body ++ String c EmptyString) (-1) = String c EmptyString.
Proof.
  unfold slice_from, slice, relative_index. rewrite length_app. simpl.
  set (n := String.length body).
  replace (Z.of_nat (n + 1) + -1 <? 0)%Z with false.
  2:{ symmetry. apply Z.ltb_ge. lia. }
  replace (-1 <? 0)%Z with true by reflexivity.
  replace (Z.of_nat (n + 1) <? 0)%Z with false.
  2:{ symmetry. apply Z.ltb_ge. lia. }
  replace (Z.to_nat (Z.max (Z.of_nat (n + 1) + -1) 0)) with n by lia.
  replace (Z.to_nat
             (Z.max (Z.min (Z.of_nat (n + 1)) (Z.of_nat (n + 1))
                     - Z.max (Z.of_nat (n + 1) + -1) 0) 0)) with 1 by lia.
  subst n. rewrite substring_skip. reflexivity.
Qed.

(** [s.slice(0, -1)] drops the last code unit. *)
Lemma slice_init (body : string) (c : ascii) :
  slice (body ++ String c EmptyString) 0 (-1) = body.
Proof.
  unfold slice, relative_index. rewrite length_app. simpl.
  set (n := String.length body).
  replace (Z.to_nat (Z.min 0 (Z.of_nat (n + 1)))) with 0 by lia.
  replace (Z.to_nat
             (Z.max (Z.max (Z.of_nat (n + 1) + -1) 0
                     - Z.min 0 (Z.of_nat (n + 1))) 0)) with n by lia.
  subst n. apply substring_0_app.
Qed.

Lemma snoc_inj (s t : string) (a b : ascii) :
  s ++ String a EmptyString = t ++ String b EmptyString -> s = t /\ a = b.
Proof.
  revert t; induction s as [|c s IH]; intros [|d t] H; simpl in H.
  - injection H as ->. now split.
  - injection H as -> H. destruct t; discriminate.
  - injection H as -> H. destruct s; discriminate.
  - injection H as -> H. destruct (IH _ H) as [-> ->]. now split.
Qed.

Lemma snoc_cases (s : string) :
  s = EmptyString \/ exists body c, s = body ++ String c EmptyString.
Proof.
  induction s as [|c s IH]; [now left | right].
  destruct IH as [-> | (body & d & ->)].
  - now exists EmptyString, c.
  - now exists (String c body), d.
Qed.

Lemma join_cons (sep x : string) (xs : list string) :
  xs <> [] -> join sep (x :: xs) = x ++ sep ++ join sep xs.
Proof. destruct xs; [congruence | reflexivity]. Qed.

Lemma join_app (sep : string) (xs ys : list string) :
  xs <> [] -> ys <> [] ->
  join sep (xs ++ ys)%list = join sep xs ++ sep ++ join sep ys.
Proof.
  intros Hx Hy. induction xs as [|x xs IH]; [congruence|].
  destruct xs as [|x' xs].
  - simpl app. rewrite join_cons by assumption. reflexivity.
  - change ((x :: x' :: xs) ++ ys)%list with (x :: ((x' :: xs) ++ ys))%list.
    rewrite join_cons by discriminate.
    rewrite IH by discriminate.
    rewrite (join_cons sep x (x' :: xs)) by discriminate.
    now rewrite !app_assoc.
Qed.

(** Replacing an element by the non-empty list it is the join of. *)
Lemma join_splice (sep : string) (before inner after : list string) :
  inner <> [] ->
  join sep (before ++ join sep inner :: after)%list
  = join sep (before ++ inner ++ after)%list.
Proof.
  intros Hinner.
  assert (Htail : join sep (join sep inner :: after)
                  = join sep (inner ++ after)%list).
  { destruct after as [|a after].
    - rewrite List.app_nil_r. reflexivity.
    - rewrite join_cons, join_app by (assumption || discriminate).
      reflexivity. }
  destruct before as [|b before]; [exact Htail|].
  change ((b :: before) ++ join sep inner :: after)%list
    with ((b :: before) ++ (join sep inner :: after))%list.
  rewrite (join_app sep (b :: before) (join sep inner :: after))
    by discriminate.
  rewrite (join_app sep (b :: before) (inner ++ after)%list).
  - now rewrite Htail.
  - discriminate.
  - destruct inner; [congruence | discriminate].
Qed.

End JsFacts.

(** ** The serializer: rendering of each kind of rule *)

Section SerializerFacts.

Variable kebabCase : string -> string.

Lemma parser_literal (s : string) :
  parser kebabCase (inl s) = Js.dquote ++ s ++ Js.dquote.
Proof. reflexivity. Qed.

Lemma parser_sequence_plain (parts : list (string + rule)) :
  parser kebabCase (inr (sequenceRuleType parts None)) = Js.join " " (map (parser kebabCase) parts).
Proof. reflexivity. Qed.

Lemma parser_sequence_cardinality parts (c : ruleCardinality.t) :
  parser kebabCase (inr (sequenceRuleType parts (Some c)))
  = "(" ++ Js.join " " (map (parser kebabCase) parts) ++ ")" ++ Spec.glyph c.
Proof. destruct c; reflexivity. Qed.

Lemma parser_oneOf parts (c : option ruleCardinality.t) :
  parser kebabCase (inr (oneOfRuleType parts c))
  = "(" ++ Js.join " | " (map (parser kebabCase) parts) ++ ")" ++ cardinalityChar c.
Proof.
  cbn [parser parser_rule].
  change (String "(" (Js.join " | " (map (parser kebabCase) parts) ++ ")")
          ++ cardinalityChar c
          = String "(" (Js.join " | " (map (parser kebabCase) parts)
                        ++ ")" ++ cardinalityChar c)).
  cbn [append]. f_equal. apply JsFacts.app_assoc.
Qed.

Lemma parser_ref id (c : option ruleCardinality.t) :
  parser kebabCase (inr (refRuleType id c)) = kebabCase id ++ cardinalityChar c.
Proof. reflexivity. Qed.

Lemma parser_range range (c : option ruleCardinality.t) :
  parser kebabCase (inr (rangeRuleType range c)) = range ++ cardinalityChar c.
Proof. reflexivity. Qed.

Lemma cardinalityChar_glyph (c : ruleCardinality.t) :
  cardinalityChar (Some c) = Spec.glyph c.
Proof. now destruct c. Qed.

End SerializerFacts.

(** ** Counting characters, and escaping *)

Module SpecFacts.
Import Spec.

Lemma occurrences_app (c : ascii) (s t : string) :
  occurrences c (s ++ t) = occurrences c s + occurrences c t.
Proof. induction s as [|a s IH]; simpl; [reflexivity | rewrite IH; lia]. Qed.

Lemma occurrences_join (c : ascii) (sep : string) (xs : list string) :
  occurrences c sep = 0 ->
  occurrences c (Js.join sep xs) = list_sum (map (occurrences c) xs).
Proof.
  intros Hsep. induction xs as [|x xs IH]; [reflexivity|].
  destruct xs as [|y xs].
  - simpl. lia.
  - rewrite JsFacts.join_cons by discriminate.
    rewrite !occurrences_app, Hsep, IH. simpl. lia.
Qed.

Lemma replaceAll_length (c : ascii) (by_ s : string) :
  String.length (Js.replaceAll c by_ s) + occurrences c s
  = String.length s + occurrences c s * String.length by_.
Proof.
  induction s as [|a s IH]; simpl; [reflexivity|].
  destruct (Ascii.eqb a c); simpl.
  - rewrite JsFacts.length_app. lia.
  - lia.
Qed.

Lemma replaceAll_absent (c : ascii) (by_ s : string) :
  occurrences c s = 0 -> Js.replaceAll c by_ s = s.
Proof.
  induction s as [|a s IH]; simpl; [reflexivity|].
  destruct (Ascii.eqb a c); simpl; [discriminate|].
  intros H. now rewrite IH.
Qed.

(** Escaping leaves a literal alone exactly when it has no double quote. *)
Lemma escaped_literal_verbatim (s : string) :
  escaped_literal s = Js.dquote ++ s ++ Js.dquote
  <-> occurrences Js.dquote_char s = 0.
Proof.
  unfold escaped_literal.
  remember ("\" ++ Js.dquote) as by_ eqn:Hby.
  assert (Hlen : String.length by_ = 2) by now subst by_.
  split.
  - intros H. cbn [Js.dquote append] in H. injection H as H.
    apply JsFacts.snoc_inj in H. destruct H as [H _].
    pose proof (replaceAll_length Js.dquote_char by_ s) as L.
    rewrite H, Hlen in L. lia.
  - intros H. now rewrite replaceAll_absent.
Qed.

End SpecFacts.

(** ** Flattening of nested sequences *)

Module FlattenFacts.

Lemma join_flat_map {A : Type} (sep : string) (f : A -> string)
      (g : A -> list A) (parts : list A) :
  Forall (fun p => f p = Js.join sep (map f (g p)) /\ g p <> []) parts ->
  Js.join sep (map f (flat_map g parts)) = Js.join sep (map f parts).
Proof.
  induction 1 as [|p ps [Hp Hne] Hps IH]; [reflexivity|].
  cbn [flat_map]. rewrite map_app.
  destruct ps as [|p' ps].
  - cbn [flat_map map]. rewrite app_nil_r. now rewrite <- Hp.
  - rewrite JsFacts.join_app.
    + rewrite IH, <- Hp. cbn [map].
      now rewrite (JsFacts.join_cons sep (f p)) by discriminate.
    + destruct (g p); [congruence | discriminate].
    + inversion Hps as [|? ? [_ Hne'] _]; subst.
      cbn [flat_map]. destruct (g p'); [congruence | discriminate].
Qed.

Lemma flatten_rule_leaf (r : rule) :
  plain_sequence (inr r) = false -> flatten_rule r = [inr r].
Proof. destruct r as [[|p ps] [c|] | | |]; simpl; congruence. Qed.

Lemma flatten_rule_plain (p : string + rule) ps :
  flatten_rule (sequenceRuleType (p :: ps) None)
  = flat_map flatten_part (p :: ps).
Proof. reflexivity. Qed.

End FlattenFacts.

(** ** The serializer: literals, cardinality, parentheses *)

Section SerializerClaims.

Variable kebabCase : string -> string.

(** Every rule renders as the space-join of the renderings of its flattened
    parts, and flattening never yields the empty list. *)
Lemma parser_flatten (r : rule) :
  parser kebabCase (inr r)
  = Js.join " " (map (parser kebabCase) (flatten_rule r))
  /\ flatten_rule r <> [].
Proof.
  induction r as [parts c IH | parts c _ | id c | range c]
    using rule_induction;
    try (split; [reflexivity | discriminate]).
  destruct c as [c|];
    [destruct parts; (split; [reflexivity | simpl; discriminate])|].
  destruct parts as [|p ps]; [split; [reflexivity | simpl; discriminate]|].
  rewrite FlattenFacts.flatten_rule_plain, parser_sequence_plain.
  split.
  - symmetry. apply FlattenFacts.join_flat_map.
    apply Forall_impl with (2 := IH).
    intros [s | r'] H; [split; [reflexivity | discriminate] | exact H].
  - cbn [flat_map]. inversion IH as [|? ? Hp _]; subst.
    destruct p as [s | r']; [discriminate|].
    destruct Hp as [_ Hne]. cbn [flatten_part].
    destruct (flatten_rule r'); [congruence | discriminate].
Qed.

Lemma flatten_rule_no_plain_sequence (r : rule) :
  Forall (fun part => plain_sequence part = false) (flatten_rule r).
Proof.
  induction r as [parts c IH | parts c _ | id c | range c]
    using rule_induction;
    try (repeat constructor).
  destruct c as [c|].
  - rewrite FlattenFacts.flatten_rule_leaf; [repeat constructor|];
      now destruct parts.
  - destruct parts as [|p ps]; [repeat constructor|].
    rewrite FlattenFacts.flatten_rule_plain.
    apply Forall_flat_map. apply Forall_impl with (2 := IH).
    intros [s | r'] H; [repeat constructor | exact H].
Qed.

(** C1 (the code departs from the claim).  A string literal is emitted
    between double quotes verbatim: [parser] does not escape embedded double
    quotes.  A Sequence whose only part is [s] therefore renders as the
    quoted, escaped form of [s] exactly when [s] contains no double quote;
    the three-character literal made of [a], a double quote and [b] is
    rendered with its double quote left bare instead of backslash-escaped. *)
Theorem C1_literal_emitted_without_escaping :
  (forall s : string,
      parser kebabCase (inr (sequenceRuleType [inl s] None))
      = Js.dquote ++ s ++ Js.dquote)
  /\ (forall s : string,
         parser kebabCase (inr (sequenceRuleType [inl s] None))
         = Spec.escaped_literal s
         <-> Spec.occurrences Js.dquote_char s = 0)
  /\ parser kebabCase
       (inr (sequenceRuleType [inl ("a" ++ Js.dquote ++ "b")] None))
     <> Spec.escaped_literal ("a" ++ Js.dquote ++ "b").
Proof.
  split; [reflexivity|]. split.
  - intros s. rewrite <- SpecFacts.escaped_literal_verbatim.
    rewrite parser_sequence_plain. cbn [map Js.join parser]. split; congruence.
  - vm_compute. discriminate.
Qed.

(** C2 (amended).  For every rule [n] without cardinality, every
    cardinality combinator completes normally without a warning and returns
    [n] with that cardinality; its rendering is [render n] in one pair of
    parentheses followed by the glyph when [n] is a Sequence, and [render n]
    immediately followed by the glyph, with no added parentheses, when [n]
    is a OneOf, a Ref or a Range. *)
Theorem C2_cardinality_rendering (n : rule) (c : ruleCardinality.t)
        (env : Env) :
  ruleCardinalityKey n = None ->
  exists n',
    apply_cardinality c builder n env = (Normal n', [])
    /\ ruleCardinalityKey n' = Some c
    /\ parser kebabCase (inr n')
       = match n with
         | sequenceRuleType _ _ =>
             "(" ++ parser kebabCase (inr n) ++ ")" ++ Spec.glyph c
         | _ => parser kebabCase (inr n) ++ Spec.glyph c
         end.
Proof.
  intros Hn. exists (with_cardinality n c). split; [|split].
  - destruct c; cbn; unfold bind, warn_unless_production,
      differs_from_oneOrMore; rewrite Hn; reflexivity.
  - now destruct n.
  - destruct n as [parts o | parts o | id o | range o];
      cbn [ruleCardinalityKey] in Hn; subst o; cbn [with_cardinality].
    + now rewrite parser_sequence_cardinality, parser_sequence_plain.
    + rewrite !parser_oneOf, cardinalityChar_glyph. cbn [cardinalityChar].
      now rewrite JsFacts.app_empty_r, !JsFacts.app_assoc.
    + rewrite !parser_ref, cardinalityChar_glyph. cbn [cardinalityChar].
      now rewrite JsFacts.app_empty_r.
    + rewrite !parser_range, cardinalityChar_glyph. cbn [cardinalityChar].
      now rewrite JsFacts.app_empty_r.
Qed.

(** C8.  A OneOf renders as its options' renderings joined by [ | ] inside
    one pair of parentheses, followed by the glyph of its cardinality, if
    any.  A OneOf that is an option of another OneOf keeps its own
    parentheses, so that a OneOf directly inside a OneOf renders with
    doubled parentheses. *)
Theorem C8_oneOf_always_parenthesized
        (options : list (string + rule)) (c : option ruleCardinality.t) :
  parser kebabCase (inr (oneOfRuleType options c))
  = "(" ++ Js.join " | " (map (parser kebabCase) options) ++ ")"
    ++ cardinalityChar c
  /\ parser kebabCase (inr (oneOfRuleType options None))
     = "(" ++ Js.join " | " (map (parser kebabCase) options) ++ ")"
  /\ (forall before after c',
         parser kebabCase
           (inr (oneOfRuleType
                   (List.app before (inr (oneOfRuleType options c) :: after)) c'))
         = "(" ++ Js.join " | "
                    (List.app
                       (map (parser kebabCase) before)
                       (("(" ++ Js.join " | " (map (parser kebabCase) options)
                         ++ ")" ++ cardinalityChar c)
                        :: map (parser kebabCase) after))
           ++ ")" ++ cardinalityChar c')
  /\ parser kebabCase (inr (oneOfRuleType [inr (oneOfRuleType options None)] None))
     = "((" ++ Js.join " | " (map (parser kebabCase) options) ++ "))".
Proof.
  repeat split.
  - apply parser_oneOf.
  - rewrite parser_oneOf. cbn [cardinalityChar].
    now rewrite JsFacts.app_empty_r.
  - intros before after c'. rewrite parser_oneOf, map_app. cbn [map].
    now rewrite parser_oneOf.
  - rewrite parser_oneOf. cbn [map Js.join]. rewrite parser_oneOf.
    cbn [cardinalityChar]. rewrite !JsFacts.app_empty_r.
    cbn [append]. now rewrite !JsFacts.app_assoc.
Qed.

(** C9.  A Sequence without cardinality renders as the space-join of its
    parts' renderings and adds no parenthesis of its own: a non-empty
    Sequence without cardinality nested in it renders as if its parts were
    written in place, at every depth, and every parenthesis of the output
    comes from the rendering of a part. *)
Theorem C9_sequence_never_self_parenthesizes (parts : list (string + rule)) :
  parser kebabCase (inr (sequenceRuleType parts None))
  = Js.join " " (map (parser kebabCase) parts)
  /\ (forall before inner after,
         inner <> [] ->
         parts = List.app before (inr (sequenceRuleType inner None) :: after) ->
         parser kebabCase (inr (sequenceRuleType parts None))
         = parser kebabCase
             (inr (sequenceRuleType (List.app before (List.app inner after)) None)))
  /\ (parser kebabCase (inr (sequenceRuleType parts None))
      = Js.join " "
          (map (parser kebabCase) (flatten_rule (sequenceRuleType parts None)))
      /\ Forall (fun part => plain_sequence part = false)
                (flatten_rule (sequenceRuleType parts None)))
  /\ (forall paren : ascii,
         paren = "("%char \/ paren = ")"%char ->
         Spec.occurrences paren (parser kebabCase (inr (sequenceRuleType parts None)))
         = list_sum
             (map (fun part => Spec.occurrences paren (parser kebabCase part))
                  parts)).
Proof.
  split; [reflexivity|]. split; [|split; [split|]].
  - intros before inner after Hinner ->.
    rewrite !parser_sequence_plain, !map_app. cbn [map].
    rewrite parser_sequence_plain.
    apply JsFacts.join_splice.
    destruct inner; [congruence | discriminate].
  - apply parser_flatten.
  - apply flatten_rule_no_plain_sequence.
  - intros paren Hparen. rewrite parser_sequence_plain.
    rewrite SpecFacts.occurrences_join, map_map; [reflexivity|].
    destruct Hparen as [-> | ->]; reflexivity.
Qed.

(** C10.  [sequence()] is the Sequence with no part and no cardinality; it
    renders as the empty string, and a fresh grammar whose root is
    [sequence()] builds, without error or warning, to the single line
    [root ::= ], which ends with the space of the separator. *)
Theorem C10_empty_sequence_root (env : Env) :
  kebabCase "root" = "root" ->
  sequence builder [] = sequenceRuleType [] None
  /\ parser kebabCase (inr (sequence builder [])) = EmptyString
  /\ chain (root (fun r => ret (sequence r [])) new_Grammar env)
           (build kebabCase) env
     = {| completed := Normal "root ::= ";
          this_after := {| rules := [("root", sequenceRuleType [] None)] |};
          console := [] |}.
Proof.
  intros Hroot. repeat split.
  unfold chain, root, build. cbn. unfold build_line. cbn.
  now rewrite Hroot.
Qed.

End SerializerClaims.

(** ** The rule builder: [range] and the cardinality combinators *)

Module BuilderFacts.
Import Spec.

Lemma range_literal_spec (pattern : string) :
  range_literal pattern = true <-> well_formed_range pattern.
Proof.
  unfold range_literal, well_formed_range, begins_with, ends_with.
  rewrite andb_true_iff, !orb_true_iff.
  rewrite JsFacts.startsWith_spec, !JsFacts.endsWith_spec. tauto.
Qed.

Lemma range_cardinality_glyph (body : string) (c : ruleCardinality.t) :
  range_cardinality (body ++ glyph c) = Some (body, c).
Proof.
  unfold range_cardinality.
  destruct c; cbn [glyph];
    rewrite JsFacts.slice_last, JsFacts.slice_init; reflexivity.
Qed.

Lemma range_cardinality_bracket (front : string) :
  range_cardinality (front ++ "]") = None.
Proof.
  unfold range_cardinality. now rewrite JsFacts.slice_last.
Qed.

(** A well-formed pattern that ends with a glyph has a bracketed body. *)
Lemma well_formed_body (body : string) (c : ruleCardinality.t) :
  well_formed_range (body ++ glyph c) ->
  begins_with body "[" /\ ends_with body "]".
Proof.
  intros [[rest Hrest] Hend].
  assert (Hbody : ends_with body "]").
  { destruct Hend as [[f H] | [[f H] | [[f H] | [f H]]]];
      [ change "]" with (EmptyString ++ String "]" EmptyString) in H
      | change "]?" with ("]" ++ String "?" EmptyString) in H
      | change "]*" with ("]" ++ String "*" EmptyString) in H
      | change "]+" with ("]" ++ String "+" EmptyString) in H ];
      rewrite <- JsFacts.app_assoc in H;
      destruct c; cbn [glyph] in H;
      apply JsFacts.snoc_inj in H; destruct H as [H Hc];
      try discriminate Hc; exists f; exact H. }
  split; [|exact Hbody].
  destruct Hbody as [f ->].
  destruct f as [|a f].
  - destruct c; discriminate Hrest.
  - cbn [append] in Hrest. injection Hrest as -> _. now exists (f ++ "]").
Qed.

Lemma not_production_dev : not_production dev = true.
Proof. reflexivity. Qed.

(** What each cardinality combinator does, for any rule. *)
Lemma apply_cardinality_eq (c : ruleCardinality.t) (n : rule) (env : Env) :
  apply_cardinality c builder n env
  = (Normal (with_cardinality n c),
     if differs_from_oneOrMore n && not_production env
     then [cardinality_warning
             match c with
             | ruleCardinality.zeroOrMore => "zeroOrMore"
             | ruleCardinality.oneOrMore => "oneOrMore"
             | ruleCardinality.optional => "optional"
             end]
     else []).
Proof.
  destruct c; cbn; unfold bind, warn_unless_production;
    destruct (differs_from_oneOrMore n && not_production env); reflexivity.
Qed.

End BuilderFacts.

(** C3.  [range(pattern)] throws if and only if [pattern] does not begin
    with an opening bracket or does not end with a closing bracket
    optionally followed by one of the glyphs [?], [*], [+]; the message of
    the error ends with [pattern] itself.  Otherwise it returns a Range:
    when [pattern] is a body followed by a glyph, the node stores the body,
    which begins and ends with a bracket, and carries the cardinality of
    the glyph; when [pattern] ends with the closing bracket, the node
    stores [pattern] and carries no cardinality.  No warning is emitted. *)
Theorem C3_range_validation (pattern : string) (env : Env) :
  snd (range builder pattern env) = []
  /\ ((exists e, fst (range builder pattern env) = Throw e)
      <-> ~ Spec.well_formed_range pattern)
  /\ (forall e,
         fst (range builder pattern env) = Throw e ->
         message e
         = "Range must be in the form of a range literal (e.g. [0-9]), received: "
           ++ pattern)
  /\ (forall body c,
         Spec.well_formed_range pattern ->
         pattern = body ++ Spec.glyph c ->
         fst (range builder pattern env) = Normal (rangeRuleType body (Some c))
         /\ Spec.begins_with body "[" /\ Spec.ends_with body "]")
  /\ (Spec.well_formed_range pattern ->
      Spec.ends_with pattern "]" ->
      fst (range builder pattern env) = Normal (rangeRuleType pattern None)).
Proof.
  pose proof (BuilderFacts.range_literal_spec pattern) as Hspec.
  cbn [range builder]. unfold throw, ret.
  destruct (range_literal pattern) eqn:Hlit; cbn [negb].
  - assert (Hwf : Spec.well_formed_range pattern) by now apply Hspec.
    split; [now destruct (range_cardinality pattern) as [[? ?]|]|].
    split; [|split; [|split]].
    + split; [|tauto].
      intros [e He]. now destruct (range_cardinality pattern) as [[? ?]|].
    + intros e He. now destruct (range_cardinality pattern) as [[? ?]|].
    + intros body c _ ->.
      rewrite BuilderFacts.range_cardinality_glyph.
      split; [reflexivity|]. now apply BuilderFacts.well_formed_body with c.
    + intros _ [front ->].
      now rewrite BuilderFacts.range_cardinality_bracket.
  - assert (Hwf : ~ Spec.well_formed_range pattern).
    { intros H. apply Hspec in H. discriminate. }
    split; [reflexivity|]. split; [|split; [|split]].
    + split; [intros _; exact Hwf | intros _; eexists; reflexivity].
    + intros e [= <-]. reflexivity.
    + intros body c H. contradiction.
    + intros H. contradiction.
Qed.

(** C4 (the code departs from the claim).  A cardinality combinator never
    fails and always overwrites the cardinality, but it decides whether to
    warn by comparing the existing cardinality with [oneOrMore], whichever
    combinator is applied: outside production the warning is emitted exactly
    when the existing cardinality is not [oneOrMore].  So [zeroOrMore]
    applied to a rule that is already [zeroOrMore] warns, and [optional]
    applied to a [oneOrMore] rule overwrites it silently. *)
Theorem C4_cardinality_warning_compares_with_oneOrMore :
  range builder "[0-9]*" dev
  = (Normal (rangeRuleType "[0-9]" (Some ruleCardinality.zeroOrMore)), [])
  /\ zeroOrMore builder (rangeRuleType "[0-9]" (Some ruleCardinality.zeroOrMore)) dev
     = (Normal (rangeRuleType "[0-9]" (Some ruleCardinality.zeroOrMore)),
        [cardinality_warning "zeroOrMore"])
  /\ optional builder (rangeRuleType "[0-9]" (Some ruleCardinality.oneOrMore)) dev
     = (Normal (rangeRuleType "[0-9]" (Some ruleCardinality.optional)), [])
  /\ (forall (c existing : ruleCardinality.t) (n : rule) (env : Env),
         ruleCardinalityKey n = Some existing ->
         exists n' warnings,
           apply_cardinality c builder n env = (Normal n', warnings)
           /\ ruleCardinalityKey n' = Some c
           /\ (warnings = []
               <-> existing = ruleCardinality.oneOrMore
                   \/ NODE_ENV env = Some "production")).
Proof.
  split; [reflexivity|]. split; [reflexivity|]. split; [reflexivity|].
  intros c existing n env Hn.
  rewrite BuilderFacts.apply_cardinality_eq.
  eexists _, _. split; [reflexivity|]. split; [now destruct n|].
  unfold differs_from_oneOrMore, not_production. rewrite Hn.
  destruct env as [[v|]]; cbn [NODE_ENV].
  - destruct (String.eqb_spec v "production") as [-> | Hv];
      destruct existing; cbn; split; intros H;
      try reflexivity; try discriminate; try (now left); try (now right);
      destruct H as [H | H]; congruence.
  - destruct existing; cbn; split; intros H;
      try reflexivity; try discriminate; try (now left);
      destruct H as [H | H]; discriminate.
Qed.

(** ** The registry *)

Module JsObjectFacts.
Import JsObject.

Section Facts.
Context {V : Type}.
Implicit Types (o : JsObject.t V) (key : string) (v : V).

Lemma hasOwn_spec o key :
  hasOwn o key = true <-> exists v, In (key, v) o.
Proof.
  unfold hasOwn. rewrite existsb_exists. split.
  - intros [[k v] [Hin Heq]]. apply String.eqb_eq in Heq.
    cbn in Heq. subst k. now exists v.
  - intros [v Hin]. exists (key, v). split; [exact Hin|].
    apply String.eqb_refl.
Qed.

Lemma hasOwn_update o key v : hasOwn (update key v o) key = true.
Proof.
  induction o as [|[k v'] o IH]; cbn.
  - now rewrite String.eqb_refl.
  - destruct (String.eqb_spec k key) as [-> | Hk]; cbn.
    + now rewrite String.eqb_refl.
    + destruct (String.eqb_spec k key); [contradiction | exact IH].
Qed.

Lemma hasOwn_set_root o v : hasOwn (set "root" v o) "root" = true.
Proof. apply hasOwn_update. Qed.

Lemma insert_index_perm n (e : string * V) l :
  Permutation (map snd (insert_index n e l)) (e :: map snd l).
Proof.
  induction l as [|[m e'] l IH]; cbn; [reflexivity|].
  destruct (n <=? m)%N; cbn; [reflexivity|].
  rewrite IH. apply perm_swap.
Qed.

Lemma index_entries_perm o :
  Permutation (map snd (index_entries o))
              (filter (fun e => is_array_index (fst e)) o).
Proof.
  induction o as [|[k v] o IH]; cbn; [reflexivity|].
  unfold is_array_index. destruct (array_index k) as [n|]; [|exact IH].
  rewrite insert_index_perm. now constructor.
Qed.

Lemma filter_partition_perm (f : string * V -> bool) o :
  Permutation (filter f o ++ filter (fun e => negb (f e)) o)%list o.
Proof.
  induction o as [|e o IH]; cbn; [reflexivity|].
  destruct (f e); cbn.
  - now constructor.
  - rewrite <- Permutation_middle. now constructor.
Qed.

(** [Object.entries] lists every property exactly once. *)
Lemma entries_perm o : Permutation (entries o) o.
Proof.
  unfold entries, string_entries. rewrite index_entries_perm.
  apply filter_partition_perm.
Qed.

Lemma insert_index_sorted n (e : string * V) l :
  Sorted N.le (map fst l) -> Sorted N.le (map fst (insert_index n e l)).
Proof.
  induction l as [|[m e'] l IH]; cbn; intros Hs.
  - repeat constructor.
  - destruct (N.leb_spec n m); cbn.
    + constructor; [exact Hs | now constructor].
    + inversion Hs as [|? ? Hs' Hhd]; subst.
      constructor; [now apply IH|].
      destruct l as [|[m' e''] l]; cbn.
      * constructor. lia.
      * destruct (N.leb_spec n m'); cbn; constructor; [lia|].
        now inversion Hhd.
Qed.

(** The array-index properties come by ascending index. *)
Lemma index_entries_sorted o : Sorted N.le (map fst (index_entries o)).
Proof.
  induction o as [|[k v] o IH]; cbn; [constructor|].
  destruct (array_index k); [now apply insert_index_sorted | exact IH].
Qed.

Lemma insert_index_Forall (Q : N * (string * V) -> Prop) n e l :
  Q (n, e) -> Forall Q l -> Forall Q (insert_index n e l).
Proof.
  intros Hq. induction 1 as [|[m e'] l Hm Hl IH]; cbn.
  - now repeat constructor.
  - destruct (n <=? m)%N; repeat constructor; assumption.
Qed.

(** Each of them is listed with the index its key denotes. *)
Lemma index_entries_keys o :
  Forall (fun ne => array_index (fst (snd ne)) = Some (fst ne)
                    /\ In (snd ne) o)
         (index_entries o).
Proof.
  induction o as [|[k v] o IH]; cbn; [constructor|].
  assert (IH' : Forall (fun ne => array_index (fst (snd ne)) = Some (fst ne)
                                  /\ ((k, v) = snd ne \/ In (snd ne) o))
                       (index_entries o)).
  { apply Forall_impl with (2 := IH). intros ne [H1 H2]. tauto. }
  destruct (array_index k) as [n|] eqn:Hk; [|exact IH'].
  apply insert_index_Forall; [|exact IH']. cbn. tauto.
Qed.

(** Without array-index keys, [Object.entries] is the creation order. *)
Lemma entries_creation_order o :
  (forall e, In e o -> is_array_index (fst e) = false) -> entries o = o.
Proof.
  unfold entries, string_entries. intros H.
  induction o as [|[k v] o IH]; [reflexivity|].
  pose proof (H (k, v) (or_introl eq_refl)) as Hk. cbn in Hk.
  cbn [index_entries filter fst]. rewrite Hk. cbn [negb].
  unfold is_array_index in Hk. destruct (array_index k); [discriminate|].
  assert (Hidx : index_entries o = []).
  { clear IH Hk. induction o as [|[k' v'] o IHo]; [reflexivity|].
    cbn. pose proof (H (k', v') (or_intror (or_introl eq_refl))) as Hk'.
    unfold is_array_index in Hk'. cbn in Hk'.
    destruct (array_index k'); [discriminate|].
    apply IHo. intros e [He | He]; apply H; [now left | right; now right]. }
  rewrite Hidx. cbn [map app]. f_equal.
  rewrite Hidx in IH. cbn [map app] in IH. apply IH.
  intros e He. apply H. now right.
Qed.

End Facts.
End JsObjectFacts.

(** [root] finalizes the grammar: after it returns, the registry has a
    [root] entry. *)
Lemma root_finalizes (rule_fn : RuleBuilder -> Eff rule) (this g : Grammar)
      (env : Env) :
  completed (root rule_fn this env) = Normal g ->
  exists r, In ("root", r) (rules g).
Proof.
  unfold root. destruct (rule_fn builder env) as [[r | e] w]; cbn;
    [|discriminate].
  intros [= <-]. apply JsObjectFacts.hasOwn_spec. cbn [rules].
  apply JsObjectFacts.hasOwn_set_root.
Qed.

(** Whenever [define] throws, for whatever reason, the registry is as it
    was before the call. *)
Lemma define_throw_unchanged (key : string) (rule_fn : RuleBuilder -> Eff rule)
      (this : Grammar) (env : Env) (e : Error) :
  completed (define key rule_fn this env) = Throw e ->
  this_after (define key rule_fn this env) = this.
Proof.
  unfold define.
  destruct (String.eqb key "root"); [reflexivity|].
  destruct (JsObject.hasOwn (rules this) "root"); [reflexivity|].
  destruct (rule_fn builder env) as [[r | e'] w]; cbn;
    [discriminate | reflexivity].
Qed.

(** C5.  [define(name, builderFn)] throws when [name] is [root] and when the
    registry already has a [root] entry; in both cases the builder function
    is not run, nothing is logged, and the registry is left as it was. *)
Theorem C5_define_rejects_root_and_finalized
        (key : string) (rule_fn : RuleBuilder -> Eff rule)
        (this : Grammar) (env : Env) :
  key = "root" \/ (exists r, In ("root", r) (rules this)) ->
  (exists e,
      completed (define key rule_fn this env) = Throw e
      /\ (key = "root" ->
          message e = "Cannot define a root rule, use root() instead")
      /\ (key <> "root" ->
          message e = "Cannot extend a grammar with a root rule"))
  /\ this_after (define key rule_fn this env) = this
  /\ rules (this_after (define key rule_fn this env)) = rules this
  /\ console (define key rule_fn this env) = [].
Proof.
  intros H. unfold define.
  destruct (String.eqb_spec key "root") as [-> | Hkey].
  - repeat split. eexists. split; [reflexivity|].
    split; [reflexivity | congruence].
  - destruct H as [H | H]; [contradiction|].
    apply JsObjectFacts.hasOwn_spec in H. rewrite H.
    repeat split. eexists. split; [reflexivity|].
    split; [contradiction | reflexivity].
Qed.

Section RegistryClaims.

Variable kebabCase : string -> string.

(** C6.  [build()] throws if and only if the registry has no [root] entry;
    the error says [No root rule defined], the call yields no text at all
    and logs nothing, and the registry is never modified by [build]. *)
Theorem C6_build_requires_root (this : Grammar) (env : Env) :
  ((exists e, completed (build kebabCase this env) = Throw e)
   <-> ~ (exists r, In ("root", r) (rules this)))
  /\ (forall e,
         completed (build kebabCase this env) = Throw e ->
         message e = "No root rule defined"
         /\ console (build kebabCase this env) = [])
  /\ this_after (build kebabCase this env) = this.
Proof.
  pose proof (JsObjectFacts.hasOwn_spec (rules this) "root") as Hspec.
  unfold build.
  destruct (JsObject.hasOwn (rules this) "root"); cbn.
  - split; [|split; [|reflexivity]].
    + split; [intros [e He]; discriminate|].
      intros Hno. exfalso. apply Hno. now apply Hspec.
    + intros e He. discriminate.
  - split; [|split; [|reflexivity]].
    + split; [|intros _; eexists; reflexivity].
      intros _ Hex. apply Hspec in Hex. discriminate.
    + intros e [= <-]. now split.
Qed.

(** C7 (amended).  For every registry that has a [root] entry, [build()]
    returns one line per registry entry, root included, each of the form
    [<normalized-name> ::= <rendered-node>] with the name normalized by the
    same [kebabCase] that renders Ref targets, joined by single newlines
    with nothing after the last line.  The lines follow the order of
    [Object.entries]: first the entries whose name is an array index, by
    ascending index, then all other entries in insertion order; this is
    the insertion order whenever no rule name is an array index. *)
Theorem C7_build_output (this : Grammar) (env : Env) :
  (exists r, In ("root", r) (rules this)) ->
  build kebabCase this env
  = {| completed :=
         Normal
           (Js.join Js.newline
              (map (fun entry =>
                      kebabCase (fst entry) ++ " ::= "
                      ++ parser kebabCase (inr (snd entry)))
                   (JsObject.entries (rules this))));
       this_after := this;
       console := [] |}
  /\ (forall id c,
         parser kebabCase (inr (refRuleType id c))
         = kebabCase id ++ cardinalityChar c)
  /\ Permutation (JsObject.entries (rules this)) (rules this)
  /\ JsObject.entries (rules this)
     = List.app
         (map snd (JsObject.index_entries (rules this)))
         (filter (fun entry => negb (JsObject.is_array_index (fst entry)))
                 (rules this))
  /\ Sorted N.le (map fst (JsObject.index_entries (rules this)))
  /\ Forall (fun ne => JsObject.array_index (fst (snd ne)) = Some (fst ne)
                       /\ In (snd ne) (rules this))
            (JsObject.index_entries (rules this))
  /\ ((forall entry,
          In entry (rules this) ->
          JsObject.is_array_index (fst entry) = false) ->
      JsObject.entries (rules this) = rules this).
Proof.
  intros Hroot. apply JsObjectFacts.hasOwn_spec in Hroot.
  split; [|split; [|split; [|split; [|split; [|split]]]]].
  - unfold build. rewrite Hroot. cbn [negb]. do 3 f_equal.
    apply map_ext. intros [name r]. unfold build_line. cbn [fst snd].
    apply JsFacts.app_assoc.
  - intros id c. apply parser_ref.
  - apply JsObjectFacts.entries_perm.
  - reflexivity.
  - apply JsObjectFacts.index_entries_sorted.
  - apply JsObjectFacts.index_entries_keys.
  - apply JsObjectFacts.entries_creation_order.
Qed.

(** [build] is a pure read: calling it again on the receiver it left
    gives the same outcome. *)
Lemma build_idempotent (this : Grammar) (env env' : Env) :
  build kebabCase (this_after (build kebabCase this env)) env'
  = build kebabCase this env.
Proof.
  unfold build. destruct (JsObject.hasOwn (rules this) "root") eqn:H;
    cbn [negb this_after]; rewrite H; reflexivity.
Qed.

End RegistryClaims.

(** ** The claims at concrete inputs *)

(** C2, the claim as stated fails: [zeroOrMore(range("[0-9]"))] renders as
    the pattern followed by the glyph, with no parentheses around it. *)
Lemma C2_counterexample_range_gets_no_parentheses :
  ruleCardinalityKey (rangeRuleType "[0-9]" None) = None
  /\ fst (zeroOrMore builder (rangeRuleType "[0-9]" None) dev)
     = Normal (rangeRuleType "[0-9]" (Some ruleCardinality.zeroOrMore))
  /\ parser KebabAscii.kebabCase
       (inr (rangeRuleType "[0-9]" (Some ruleCardinality.zeroOrMore)))
     = "[0-9]*"
  /\ parser KebabAscii.kebabCase
       (inr (rangeRuleType "[0-9]" (Some ruleCardinality.zeroOrMore)))
     <> "(" ++ parser KebabAscii.kebabCase (inr (rangeRuleType "[0-9]" None))
        ++ ")" ++ "*".
Proof. repeat split. vm_compute. discriminate. Qed.

Lemma C2_cardinality_rendering_witness :
  ruleCardinalityKey (sequenceRuleType [inl "a"; inl "b"] None) = None
  /\ exists n',
      apply_cardinality ruleCardinality.optional builder
        (sequenceRuleType [inl "a"; inl "b"] None) dev
      = (Normal n', [])
      /\ ruleCardinalityKey n' = Some ruleCardinality.optional
      /\ parser KebabAscii.kebabCase (inr n')
         = "("
           ++ parser KebabAscii.kebabCase
                (inr (sequenceRuleType [inl "a"; inl "b"] None))
           ++ ")" ++ "?".
Proof.
  split; [reflexivity|].
  exact (C2_cardinality_rendering KebabAscii.kebabCase
           (sequenceRuleType [inl "a"; inl "b"] None)
           ruleCardinality.optional dev eq_refl).
Defined.

Lemma C3_range_validation_witness :
  Spec.well_formed_range "[0-9]+"
  /\ fst (range builder "[0-9]+" dev)
     = Normal (rangeRuleType "[0-9]" (Some ruleCardinality.oneOrMore))
  /\ Spec.begins_with "[0-9]" "["
  /\ Spec.ends_with "[0-9]" "]".
Proof.
  assert (Hwf : Spec.well_formed_range "[0-9]+").
  { split; [now exists "0-9]+" | right; right; right; now exists "[0-9"]. }
  split; [exact Hwf|].
  exact (proj1 (proj2 (proj2 (proj2 (C3_range_validation "[0-9]+" dev))))
           "[0-9]" ruleCardinality.oneOrMore Hwf eq_refl).
Defined.

Lemma C5_define_rejects_root_witness :
  ("root" = "root" \/ exists r, In ("root", r) (rules new_Grammar))
  /\ this_after
       (define "root" (fun r => ret (sequence r [inl "c"; inl "d"]))
          new_Grammar dev)
     = new_Grammar.
Proof.
  split; [now left|].
  exact (proj1 (proj2
           (C5_define_rejects_root_and_finalized "root"
              (fun r => ret (sequence r [inl "c"; inl "d"]))
              new_Grammar dev (or_introl eq_refl)))).
Defined.

Lemma C6_build_requires_root_witness :
  exists e,
    completed
      (build KebabAscii.kebabCase
         {| rules := [("test", sequenceRuleType [inl "c"; inl "d"] None)] |} dev)
    = Throw e.
Proof.
  apply (proj1 (C6_build_requires_root KebabAscii.kebabCase
                  {| rules := [("test", sequenceRuleType [inl "c"; inl "d"] None)] |}
                  dev)).
  intros [r [H | []]]. discriminate H.
Defined.

(** C7, the claim as stated fails: a rule named [1], defined after the rule
    [b], is emitted before it. *)
Lemma C7_counterexample_array_index_name_first :
  completed
    (chain
       (chain
          (define "b" (fun r => range r "[0-9]") new_Grammar dev)
          (define "1" (fun r => range r "[a-z]")) dev)
       (root (fun r => ret (ref r "b"))) dev)
  = Normal numeric_name_grammar
  /\ completed (build KebabAscii.kebabCase numeric_name_grammar dev)
     = Normal (Js.join Js.newline
                 ["1 ::= [a-z]"; "b ::= [0-9]"; "root ::= b"])
  /\ completed (build KebabAscii.kebabCase numeric_name_grammar dev)
     <> Normal (Js.join Js.newline
                  (map (build_line KebabAscii.kebabCase)
                       (rules numeric_name_grammar))).
Proof. repeat split. vm_compute. discriminate. Qed.

Lemma C7_build_output_witness :
  (exists r,
      In ("root", r)
         [("sequenceA", sequenceRuleType [inl "a"; inl "b"] None);
          ("root", sequenceRuleType [inr (refRuleType "sequenceA" None); inl "c"] None)])
  /\ build KebabAscii.kebabCase
       {| rules :=
            [("sequenceA", sequenceRuleType [inl "a"; inl "b"] None);
             ("root",
              sequenceRuleType [inr (refRuleType "sequenceA" None); inl "c"] None)] |}
       dev
     = {| completed :=
            Normal
              (Js.join Js.newline
                 ["sequence-a ::= " ++ Js.dquote ++ "a" ++ Js.dquote ++ " "
                  ++ Js.dquote ++ "b" ++ Js.dquote;
                  "root ::= sequence-a " ++ Js.dquote ++ "c" ++ Js.dquote]);
          this_after :=
            {| rules :=
                 [("sequenceA", sequenceRuleType [inl "a"; inl "b"] None);
                  ("root",
                   sequenceRuleType [inr (refRuleType "sequenceA" None); inl "c"]
                                None)] |};
          console := [] |}.
Proof.
  assert (H : exists r,
             In ("root", r)
                [("sequenceA", sequenceRuleType [inl "a"; inl "b"] None);
                 ("root",
                  sequenceRuleType [inr (refRuleType "sequenceA" None); inl "c"] None)]).
  { eexists. right. left. reflexivity. }
  split; [exact H|].
  exact (proj1 (C7_build_output KebabAscii.kebabCase
                  {| rules :=
                       [("sequenceA", sequenceRuleType [inl "a"; inl "b"] None);
                        ("root",
                         sequenceRuleType
                           [inr (refRuleType "sequenceA" None); inl "c"] None)] |}
                  dev H)).
Defined.

Lemma C9_sequence_flattening_witness :
  [inl "b"; inl "c"] <> ([] : list (string + rule))
  /\ parser KebabAscii.kebabCase
       (inr (sequenceRuleType
               [inl "a"; inr (sequenceRuleType [inl "b"; inl "c"] None); inl "d"]
               None))
     = parser KebabAscii.kebabCase
         (inr (sequenceRuleType [inl "a"; inl "b"; inl "c"; inl "d"] None)).
Proof.
  split; [discriminate|].
  exact (proj1 (proj2
           (C9_sequence_never_self_parenthesizes KebabAscii.kebabCase
              [inl "a"; inr (sequenceRuleType [inl "b"; inl "c"] None); inl "d"]))
           [inl "a"] [inl "b"; inl "c"] [inl "d"]
           ltac:(discriminate) eq_refl).
Defined.

Lemma C10_empty_sequence_root_witness :
  KebabAscii.kebabCase "root" = "root"
  /\ completed
       (chain (root (fun r => ret (sequence r [])) new_Grammar dev)
              (build KebabAscii.kebabCase) dev)
     = Normal "root ::= ".
Proof.
  split; [reflexivity|].
  exact (f_equal completed
           (proj2 (proj2
              (C10_empty_sequence_root KebabAscii.kebabCase dev eq_refl)))).
Defined.

(** ** The repository's tests, run on the model *)

Module RepositoryTests.

Example parse_sequence_with_nested_sequence :
  completed
    (call (root (fun r => ret (sequence r [inl "a";
                                           inr (sequence r [inl "b"; inl "c"]);
                                           inl "d"])))
     |> build')
  = lines ["root ::= " ++ quoted "a" ++ " " ++ quoted "b" ++ " "
           ++ quoted "c" ++ " " ++ quoted "d"].
Proof. reflexivity. Qed.

Example parse_sequence_with_nested_oneOf :
  completed
    (call (root (fun r => ret (sequence r [inl "a";
                                           inr (oneOf r [inl "b"; inl "c"]);
                                           inl "d"])))
     |> build')
  = lines ["root ::= " ++ quoted "a" ++ " (" ++ quoted "b" ++ " | "
           ++ quoted "c" ++ ") " ++ quoted "d"].
Proof. reflexivity. Qed.

Example parse_oneOf_with_nested_oneOf :
  completed
    (call (root (fun r => ret (oneOf r [inl "a";
                                        inr (oneOf r [inl "b"; inl "c"]);
                                        inl "d"])))
     |> build')
  = lines ["root ::= (" ++ quoted "a" ++ " | (" ++ quoted "b" ++ " | "
           ++ quoted "c" ++ ") | " ++ quoted "d" ++ ")"].
Proof. reflexivity. Qed.

Example parse_ref_to_oneOf :
  completed
    (call (define "oneOf" (fun r => ret (oneOf r [inl "a"; inl "b"])))
     |> define "ref" (fun r => ret (ref r "oneOf"))
     |> root (fun r => ret (ref r "ref"))
     |> build')
  = lines ["one-of ::= (" ++ quoted "a" ++ " | " ++ quoted "b" ++ ")";
           "ref ::= one-of";
           "root ::= ref"].
Proof. reflexivity. Qed.

Example parse_range_with_suffix :
  map (fun rangeStr =>
         completed (call (root (fun r => range r rangeStr)) |> build'))
      ["[0-9]"; "[0-9]?"; "[0-9]*"; "[0-9]+"]
  = [lines ["root ::= [0-9]"]; lines ["root ::= [0-9]?"];
     lines ["root ::= [0-9]*"]; lines ["root ::= [0-9]+"]].
Proof. reflexivity. Qed.

Example range_stores_body_and_cardinality :
  map (fun rangeStr => fst (range builder rangeStr dev))
      ["[0-9]"; "[0-9]?"; "[0-9]*"; "[0-9]+"]
  = [Normal (rangeRuleType "[0-9]" None);
     Normal (rangeRuleType "[0-9]" (Some ruleCardinality.optional));
     Normal (rangeRuleType "[0-9]" (Some ruleCardinality.zeroOrMore));
     Normal (rangeRuleType "[0-9]" (Some ruleCardinality.oneOrMore))].
Proof. reflexivity. Qed.

Example range_without_brackets_throws :
  completed (call (define "testRange" (fun r => range r "0-9")))
  = Throw {| message :=
               "Range must be in the form of a range literal (e.g. [0-9]), received: 0-9" |}.
Proof. reflexivity. Qed.

Example cardinality_of_each_kind :
  map (fun c =>
         map (fun n =>
                completed
                  (call (define "testRef" (fun r => ret (sequence r [inl "a"])))
                   |> root (fun r => apply_cardinality c r (n r))
                   |> build'))
             [(fun r => oneOf r [inl "a"; inl "b"]);
              (fun r => sequence r [inl "a"; inl "b"]);
              (fun r => rangeRuleType "[0-9]" None);
              (fun r => ref r "testRef")])
      [ruleCardinality.zeroOrMore; ruleCardinality.oneOrMore;
       ruleCardinality.optional]
  = map (fun g =>
           map (fun body => lines ["test-ref ::= " ++ quoted "a";
                                   "root ::= " ++ body ++ g])
               ["(" ++ quoted "a" ++ " | " ++ quoted "b" ++ ")";
                "(" ++ quoted "a" ++ " " ++ quoted "b" ++ ")";
                "[0-9]";
                "test-ref"])
        ["*"; "+"; "?"].
Proof. reflexivity. Qed.

Example define_root_throws :
  completed (call (define "root" (fun r => ret (sequence r [inl "c"; inl "d"]))))
  = Throw {| message := "Cannot define a root rule, use root() instead" |}.
Proof. reflexivity. Qed.

Example build_without_root_throws :
  completed
    (call (define "test" (fun r => ret (sequence r [inl "c"; inl "d"])))
     |> build')
  = Throw {| message := "No root rule defined" |}.
Proof. reflexivity. Qed.

Example extend_after_root_throws :
  completed
    (call (root (fun r => ret (sequence r [inl "c"; inl "d"])))
     |> define "test" (fun r => ret (sequence r [inl "c"; inl "d"]))
     |> build')
  = Throw {| message := "Cannot extend a grammar with a root rule" |}.
Proof. reflexivity. Qed.

Example iso8601_date_grammar :
  completed (iso8601 |> root (fun r => ret (ref r "date")) |> build')
  = lines
      ["single-digit ::= [0-9]";
       "non-zero-digit ::= [1-9]";
       "date-year ::= (" ++ quoted "19" ++ " | " ++ quoted "20"
         ++ ") single-digit single-digit";
       "date-month ::= (" ++ quoted "0" ++ " single-digit | " ++ quoted "11"
         ++ " | " ++ quoted "12" ++ ")";
       "date-day ::= (" ++ quoted "0" ++ " non-zero-digit | (" ++ quoted "1"
         ++ " | " ++ quoted "2" ++ ") single-digit | " ++ quoted "30" ++ " | "
         ++ quoted "31" ++ ")";
       "date ::= date-year " ++ quoted "-" ++ " date-month " ++ quoted "-"
         ++ " date-day";
       "root ::= date"].
Proof. reflexivity. Qed.

End RepositoryTests.

(** ** The registry: what [define] and [root] leave behind *)

Module RegistryFacts.
Import JsObject.

Section Update.
Context {V : Type}.
Implicit Types (o : JsObject.t V) (key : string) (v : V).

Lemma hasOwn_keys o key : hasOwn o key = true <-> In key (map fst o).
Proof.
  rewrite JsObjectFacts.hasOwn_spec, in_map_iff. split.
  - intros [v H]. now exists (key, v).
  - intros [[k v] [Hk H]]. cbn in Hk. subst k. now exists v.
Qed.

Lemma update_absent o key v :
  hasOwn o key = false -> update key v o = (o ++ [(key, v)])%list.
Proof.
  induction o as [|[k v'] o IH]; cbn; [reflexivity|].
  destruct (String.eqb k key); cbn; [discriminate|].
  intros H. now rewrite IH.
Qed.

Lemma update_keys o key v :
  map fst (update key v o)
  = if hasOwn o key then map fst o else (map fst o ++ [key])%list.
Proof.
  unfold hasOwn. induction o as [|[k v'] o IH]; cbn; [reflexivity|].
  destruct (String.eqb_spec k key) as [-> | Hk]; cbn; [reflexivity|].
  rewrite IH. now destruct (existsb _ o).
Qed.



Lemma update_last o key v v0 :
  ~ In key (map fst o) ->
  update key v (o ++ [(key, v0)])%list = (o ++ [(key, v)])%list.
Proof.
  induction o as [|[k v'] o IH]; cbn; intros Hn.
  - now rewrite String.eqb_refl.
  - destruct (String.eqb_spec k key) as [-> | Hk]; [tauto|].
    rewrite IH; [reflexivity | tauto].
Qed.

Lemma update_NoDup o key v :
  NoDup (map fst o) -> NoDup (map fst (update key v o)).
Proof.
  intros Hnd. rewrite update_keys.
  destruct (hasOwn o key) eqn:H; [exact Hnd|].
  apply NoDup_app; [exact Hnd | repeat constructor; intros [] |].
  intros k Hin [<- | []]. apply hasOwn_keys in Hin. congruence.
Qed.



End Update.
End RegistryFacts.

Module GrammarFacts.
Import JsObject.

Lemma hasOwn_update_other {V} (o : JsObject.t V) key v k :
  k <> key -> hasOwn (update key v o) k = hasOwn o k.
Proof.
  intros Hk. unfold hasOwn. induction o as [|[k0 v0] o IH]; cbn.
  - destruct (String.eqb_spec key k); [congruence | reflexivity].
  - destruct (String.eqb_spec k0 key) as [-> | H0]; cbn.
    + destruct (String.eqb_spec key k); [congruence | reflexivity].
    + now rewrite IH.
Qed.

(** What a successful [define] did. *)
Lemma define_normal key rule_fn g env g' :
  completed (define key rule_fn g env) = Normal g' ->
  key <> "root"
  /\ hasOwn (rules g) "root" = false
  /\ exists r w,
      rule_fn builder env = (Normal r, w)
      /\ g' = {| rules := JsObject.set key r (rules g) |}.
Proof.
  unfold define.
  destruct (String.eqb_spec key "root") as [-> | Hkey]; [discriminate|].
  destruct (hasOwn (rules g) "root"); [discriminate|].
  destruct (rule_fn builder env) as [[r | e] w]; cbn; [|discriminate].
  intros [= <-]. repeat split; [exact Hkey|]. now exists r, w.
Qed.

(** What a successful [root] did. *)
Lemma root_normal rule_fn g env g' :
  completed (root rule_fn g env) = Normal g' ->
  exists r w,
    rule_fn builder env = (Normal r, w)
    /\ g' = {| rules := update "root" r (rules g) |}.
Proof.
  unfold root.
  destruct (rule_fn builder env) as [[r | e] w]; cbn; [|discriminate].
  intros [= <-]. now exists r, w.
Qed.

Lemma reachable_invariant g : reachable g -> registry_invariant g.
Proof.
  induction 1 as [| key rule_fn env g g' _ [Hnd Hroot] Hdef
                  | rule_fn env g g' _ [Hnd Hroot] Hdef].
  - split; [constructor | discriminate].
  - apply define_normal in Hdef.
    destruct Hdef as (Hkey & Hno & r & w & _ & ->).
    unfold JsObject.set, registry_invariant.
    destruct (String.eqb key "__proto__"); cbn [rules].
    + split; [exact Hnd|]. intros H. rewrite Hno in H. discriminate.
    + split; [now apply RegistryFacts.update_NoDup|].
      rewrite hasOwn_update_other by congruence.
      intros H. rewrite Hno in H. discriminate.
  - apply root_normal in Hdef. destruct Hdef as (r & w & _ & ->).
    unfold registry_invariant. cbn [rules]. split; [now apply RegistryFacts.update_NoDup|].
    intros _. destruct (hasOwn (rules g) "root") eqn:Hhas.
    + destruct (Hroot eq_refl) as (init & r0 & Heq & Hinit).
      exists init, r. rewrite Heq.
      now rewrite RegistryFacts.update_last.
    + exists (rules g), r. rewrite RegistryFacts.update_absent by exact Hhas.
      split; [reflexivity|]. intros Hin.
      apply RegistryFacts.hasOwn_keys in Hin. congruence.
Qed.

End GrammarFacts.




Section FinalizedGrammar.

Variable kebabCase : string -> string.

(** X4.  Setting the root is final: on the grammar that a successful [root]
    returns, [define] throws for every name and builder function and leaves
    that grammar as it is, while [build] always returns a text. *)
Theorem root_finalizes_for_good
        (rule_fn : RuleBuilder -> Eff rule) (this g : Grammar) (env : Env) :
  completed (root rule_fn this env) = Normal g ->
  (forall key rule_fn' env',
      (exists e, completed (define key rule_fn' g env') = Throw e)
      /\ this_after (define key rule_fn' g env') = g
      /\ console (define key rule_fn' g env') = [])
  /\ (forall env', exists text,
         completed (build kebabCase g env') = Normal text).
Proof.
  intros Hroot. apply GrammarFacts.root_normal in Hroot.
  destruct Hroot as (r & w & _ & ->).
  assert (Hhas : JsObject.hasOwn
                   (rules {| rules := JsObject.update "root" r (rules this) |})
                   "root" = true)
    by apply JsObjectFacts.hasOwn_update.
  split.
  - intros key rule_fn' env'. unfold define.
    destruct (String.eqb key "root");
      [|rewrite Hhas]; (split; [eexists; reflexivity | now split]).
  - intros env'. unfold build. rewrite Hhas. eexists. reflexivity.
Qed.


(** X6.  In a grammar built through the API no rule name occurs twice, in
    the registry or in the entries that [build] renders: redefinitions
    replace, they never add a second line for a name. *)
Theorem reachable_names_unique (g : Grammar) :
  reachable g ->
  NoDup (map fst (rules g))
  /\ NoDup (map fst (JsObject.entries (rules g))).
Proof.
  intros Hreach.
  destruct (GrammarFacts.reachable_invariant g Hreach) as [Hnd _].
  split; [exact Hnd|].
  apply Permutation_NoDup with (l := map fst (rules g)); [|exact Hnd].
  apply Permutation_map, Permutation_sym, JsObjectFacts.entries_perm.
Qed.

End FinalizedGrammar.

(** ** The rule builder: more on [range] and the cardinality combinators *)

Section BuilderProperties.

Variable kebabCase : string -> string.

(** X7.  Whenever [range(pattern)] returns, the node is a Range whose
    stored pattern begins and ends with a bracket, [pattern] is that stored
    pattern followed by the glyph of the node's cardinality (nothing when
    it has none), and rendering the node gives [pattern] back unchanged. *)
Theorem range_round_trip (pattern : string) (env : Env) (r : rule) :
  fst (range builder pattern env) = Normal r ->
  exists body c,
    r = rangeRuleType body c
    /\ pattern = body ++ cardinalityChar c
    /\ Spec.begins_with body "["
    /\ Spec.ends_with body "]"
    /\ parser kebabCase (inr r) = pattern.
Proof.
  cbn [range builder]. unfold throw, ret.
  destruct (range_literal pattern) eqn:Hlit; cbn [negb]; [|discriminate].
  apply BuilderFacts.range_literal_spec in Hlit.
  assert (Hcases :
            (exists front, pattern = front ++ "]")
            \/ exists body c, pattern = body ++ Spec.glyph c).
  { destruct Hlit as [_ [[f ->] | [[f ->] | [[f ->] | [f ->]]]]];
      [ left; now exists f
      | right; exists (f ++ "]"), ruleCardinality.optional
      | right; exists (f ++ "]"), ruleCardinality.zeroOrMore
      | right; exists (f ++ "]"), ruleCardinality.oneOrMore ];
      now rewrite JsFacts.app_assoc. }
  destruct Hcases as [[front Hp] | (body & c & Hp)]; subst pattern.
  - rewrite BuilderFacts.range_cardinality_bracket. intros [= <-].
    exists (front ++ "]"), None. cbn [cardinalityChar].
    rewrite parser_range. cbn [cardinalityChar].
    rewrite JsFacts.app_empty_r.
    repeat split; [apply Hlit | now exists front].
  - rewrite BuilderFacts.range_cardinality_glyph. intros [= <-].
    exists body, (Some c). rewrite parser_range, cardinalityChar_glyph.
    destruct (BuilderFacts.well_formed_body body c Hlit) as [Hb He].
    now repeat split.
Qed.

(** X8.  [range] rejects every pattern shorter than two characters, the
    empty string included. *)
Theorem range_rejects_short_patterns (pattern : string) (env : Env) :
  String.length pattern < 2 ->
  fst (range builder pattern env)
  = Throw {| message := range_error pattern |}.
Proof.
  intros Hlen. cbn [range builder]. unfold throw.
  destruct (range_literal pattern) eqn:Hlit; [exfalso | reflexivity].
  apply BuilderFacts.range_literal_spec in Hlit.
  destruct Hlit as [[rest Hrest] [[f Hf] | [[f Hf] | [[f Hf] | [f Hf]]]]];
    rewrite Hf in Hlen; rewrite JsFacts.length_app in Hlen; cbn in Hlen;
    try lia.
  destruct f as [|a f]; [|cbn in Hlen; lia].
  rewrite Hf in Hrest. discriminate Hrest.
Qed.

(** X9.  The cardinality combinators compose by overwriting: applying one
    combinator and then another returns the same rule, and so the same
    rendering, as applying the second one alone; in particular applying a
    combinator twice is the same as applying it once.  Only the cardinality
    of the rule changes. *)
Theorem cardinality_last_wins (c1 c2 : ruleCardinality.t) (n : rule)
        (env : Env) :
  fst ((x <- apply_cardinality c1 builder n ;;
        apply_cardinality c2 builder x) env)
  = fst (apply_cardinality c2 builder n env)
  /\ (forall n',
         fst (apply_cardinality c2 builder n env) = Normal n' ->
         ruleCardinalityKey n' = Some c2
         /\ match n, n' with
            | sequenceRuleType parts _, sequenceRuleType parts' _
            | oneOfRuleType parts _, oneOfRuleType parts' _ => parts' = parts
            | refRuleType id _, refRuleType id' _ => id' = id
            | rangeRuleType range _, rangeRuleType range' _ => range' = range
            | _, _ => False
            end).
Proof.
  split.
  - unfold bind. rewrite BuilderFacts.apply_cardinality_eq.
    rewrite (BuilderFacts.apply_cardinality_eq c2 (with_cardinality n c1)).
    rewrite BuilderFacts.apply_cardinality_eq. cbn [fst].
    now destruct n.
  - intros n'. rewrite BuilderFacts.apply_cardinality_eq. cbn [fst].
    intros [= <-]. now destruct n.
Qed.

End BuilderProperties.

(** ** The serializer: what the fixed tokens contribute *)

Module TokenFacts.

Lemma occurrences_join_sep (c : ascii) (sep : string) (xs : list string) :
  Spec.occurrences c (Js.join sep xs)
  = list_sum (map (Spec.occurrences c) xs)
    + (List.length xs - 1) * Spec.occurrences c sep.
Proof.
  induction xs as [|x xs IH]; [reflexivity|].
  destruct xs as [|y xs].
  - simpl. lia.
  - rewrite JsFacts.join_cons by discriminate.
    rewrite !SpecFacts.occurrences_app, IH. simpl. lia.
Qed.

Lemma list_sum_zero {A} (f : A -> nat) (l : list A) :
  Forall (fun x => f x = 0) l -> list_sum (map f l) = 0.
Proof.
  induction 1 as [|x l Hx _ IH]; [reflexivity|].
  cbn [map list_sum]. now rewrite Hx.
Qed.

Section Measure.

Variable kebabCase : string -> string.

(** A count on strings that adds up over concatenation, is zero on the
    separators, the double quote and the glyphs, and cancels between the
    two parentheses. *)
Variable m : string -> Z.
Hypothesis m_app : forall s t, m (s ++ t) = (m s + m t)%Z.
Hypothesis m_empty : m EmptyString = 0%Z.
Hypothesis m_space : m " " = 0%Z.
Hypothesis m_bar : m " | " = 0%Z.
Hypothesis m_dquote : m Js.dquote = 0%Z.
Hypothesis m_glyph : forall c, m (cardinalityChar c) = 0%Z.
Hypothesis m_parens : (m "(" + m ")")%Z = 0%Z.

Variable ok : string -> bool.
Hypothesis ok_zero : forall s, ok s = true -> m s = 0%Z.

Lemma m_join (sep : string) (xs : list string) :
  m sep = 0%Z -> Forall (fun x => m x = 0%Z) xs -> m (Js.join sep xs) = 0%Z.
Proof.
  intros Hsep. induction 1 as [|x xs Hx Hxs IH]; [exact m_empty|].
  destruct xs as [|y xs]; [exact Hx|].
  rewrite JsFacts.join_cons by discriminate.
  rewrite !m_app, Hx, Hsep, IH. reflexivity.
Qed.

Lemma m_parts (parts : list (string + rule)) :
  Forall (part_holds
            (fun r => leaves_satisfy kebabCase ok r = true ->
                      m (parser kebabCase (inr r)) = 0%Z)) parts ->
  forallb (part_leaves_satisfy kebabCase ok) parts = true ->
  Forall (fun x => m x = 0%Z) (map (parser kebabCase) parts).
Proof.
  induction 1 as [|part parts Hpart _ IH]; cbn [forallb map];
    [constructor|].
  rewrite andb_true_iff. intros [Hok Hrest].
  constructor; [|now apply IH].
  destruct part as [s | r]; cbn in Hok, Hpart.
  - rewrite parser_literal, !m_app, m_dquote, (ok_zero s Hok). reflexivity.
  - now apply Hpart.
Qed.

Lemma m_parser (r : rule) :
  leaves_satisfy kebabCase ok r = true -> m (parser kebabCase (inr r)) = 0%Z.
Proof.
  induction r as [parts c IH | parts c IH | id c | range c]
    using rule_induction; cbn [leaves_satisfy]; intros Hok.
  - pose proof (m_join " " _ m_space (m_parts parts IH Hok)) as Hj.
    destruct c as [c|].
    + rewrite parser_sequence_cardinality, <- cardinalityChar_glyph.
      rewrite !m_app, Hj, m_glyph. lia.
    + now rewrite parser_sequence_plain.
  - pose proof (m_join " | " _ m_bar (m_parts parts IH Hok)) as Hj.
    rewrite parser_oneOf, !m_app, Hj, m_glyph. lia.
  - rewrite parser_ref, m_app, m_glyph, (ok_zero _ Hok). reflexivity.
  - rewrite parser_range, m_app, m_glyph, (ok_zero _ Hok). reflexivity.
Qed.

End Measure.

End TokenFacts.

Section SerializerProperties.

Variable kebabCase : string -> string.

(** X10.  The serializer keeps parentheses paired: if every literal, every
    range pattern and every normalized reference name of a rule has as many
    opening as closing parentheses, so has the rendering of the rule. *)
Theorem rendering_parentheses_paired (r : rule) :
  leaves_satisfy kebabCase parens_even r = true ->
  Spec.occurrences "(" (parser kebabCase (inr r))
  = Spec.occurrences ")" (parser kebabCase (inr r)).
Proof.
  intros Hok.
  pose proof
    (TokenFacts.m_parser kebabCase
       (fun s => (Z.of_nat (Spec.occurrences "(" s)
                  - Z.of_nat (Spec.occurrences ")" s))%Z)) as H.
  cbv beta in H. specialize (H ltac:(intros; rewrite !SpecFacts.occurrences_app; lia)
                               eq_refl eq_refl eq_refl eq_refl).
  specialize (H ltac:(intros [[]|]; reflexivity) eq_refl parens_even).
  specialize (H ltac:(unfold parens_even; intros s Hs;
                      apply Nat.eqb_eq in Hs; lia) r Hok).
  lia.
Qed.

(** The rendering of a rule has no line feed if none of its literals, range
    patterns and normalized reference names has one. *)
Lemma rendering_no_newline (r : rule) :
  leaves_satisfy kebabCase no_newline r = true ->
  no_newline (parser kebabCase (inr r)) = true.
Proof.
  intros Hok. unfold no_newline.
  pose proof
    (TokenFacts.m_parser kebabCase
       (fun s => Z.of_nat
                   (Spec.occurrences
                      (Ascii false true false true false false false false) s)))
    as H.
  cbv beta in H. specialize (H ltac:(intros; rewrite !SpecFacts.occurrences_app; lia)
                               eq_refl eq_refl eq_refl eq_refl).
  specialize (H ltac:(intros [[]|]; reflexivity) eq_refl no_newline).
  specialize (H ltac:(unfold no_newline; intros s Hs;
                      apply Nat.eqb_eq in Hs; lia) r Hok).
  apply Nat.eqb_eq. lia.
Qed.

(** X11.  When no normalized rule name and no literal, range pattern or
    normalized reference name of the registry contains a line feed, the
    text that [build] returns has exactly as many lines as the registry has
    entries: one line feed fewer than entries. *)
Theorem build_one_line_per_entry (this : Grammar) (env : Env) (text : string) :
  completed (build kebabCase this env) = Normal text ->
  (forall name r,
      In (name, r) (rules this) ->
      no_newline (kebabCase name) = true
      /\ leaves_satisfy kebabCase no_newline r = true) ->
  S (Spec.occurrences (Ascii false true false true false false false false) text)
  = List.length (rules this).
Proof.
  unfold build. intros Hbuild Hleaves.
  destruct (JsObject.hasOwn (rules this) "root") eqn:Hroot;
    cbn [negb completed] in Hbuild; [|discriminate].
  injection Hbuild as <-.
  pose proof (JsObjectFacts.entries_perm (rules this)) as Hperm.
  rewrite <- (Permutation_length Hperm).
  assert (Hlines : Forall (fun e =>
            Spec.occurrences
              (Ascii false true false true false false false false)
              (build_line kebabCase e) = 0)
            (JsObject.entries (rules this))).
  { apply Forall_forall. intros [name r] Hin.
    apply (Permutation_in _ Hperm) in Hin.
    destruct (Hleaves name r Hin) as [Hname Hr].
    apply rendering_no_newline in Hr. unfold no_newline in Hname, Hr.
    apply Nat.eqb_eq in Hname, Hr. unfold build_line.
    rewrite !SpecFacts.occurrences_app, Hname, Hr. reflexivity. }
  assert (Hne : JsObject.entries (rules this) <> []).
  { intros Hnil. rewrite Hnil in Hperm. apply Permutation_nil in Hperm.
    rewrite Hperm in Hroot. cbn in Hroot. discriminate Hroot. }
  rewrite TokenFacts.occurrences_join_sep, length_map.
  assert (Hsum : list_sum
                   (map (Spec.occurrences
                           (Ascii false true false true false false false false))
                        (map (build_line kebabCase)
                             (JsObject.entries (rules this)))) = 0).
  { rewrite map_map. now apply TokenFacts.list_sum_zero. }
  rewrite Hsum.
  destruct (JsObject.entries (rules this)); [congruence|].
  cbn [List.length Js.newline Spec.occurrences]. cbn. lia.
Qed.

(** X12.  A grammar written for the revision without cardinality renders
    the same in the current revision: for every rule of that revision, the
    current [parser] gives the text that the earlier [parser] gave. *)
Theorem parser_agrees_with_earlier_revision (r : Rev1.rule) :
  parser kebabCase (inr (upgrade r)) = Rev1.parser kebabCase (inr r).
Proof.
  induction r as [parts IH | parts IH | id | range]
    using Rev1.rule_induction.
  - change (upgrade (Rev1.sequenceRuleType parts))
      with (sequenceRuleType (map upgrade_part parts) None).
    rewrite parser_sequence_plain, map_map.
    change (Rev1.parser kebabCase (inr (Rev1.sequenceRuleType parts)))
      with (Js.join " " (map (Rev1.parser kebabCase) parts)).
    f_equal. apply map_ext_Forall. apply Forall_impl with (2 := IH).
    intros [s | r'] H; [reflexivity | exact H].
  - change (upgrade (Rev1.oneOfRuleType parts))
      with (oneOfRuleType (map upgrade_part parts) None).
    rewrite parser_oneOf, map_map. cbn [cardinalityChar].
    rewrite JsFacts.app_empty_r.
    change (Rev1.parser kebabCase (inr (Rev1.oneOfRuleType parts)))
      with ("(" ++ Js.join " | " (map (Rev1.parser kebabCase) parts) ++ ")").
    do 3 f_equal. apply map_ext_Forall. apply Forall_impl with (2 := IH).
    intros [s | r'] H; [reflexivity | exact H].
  - cbn. apply JsFacts.app_empty_r.
  - cbn. apply JsFacts.app_empty_r.
Qed.

(** X13.  [range] of the current revision accepts and rejects the same
    patterns as [range] of the revision without cardinality, with the same
    error, and the node it returns renders as the node of that revision
    did, although it now stores the glyph apart from the pattern. *)
Theorem range_agrees_with_earlier_revision (pattern : string) (env : Env) :
  match fst (Rev1.range Rev1.builder pattern env),
        fst (range builder pattern env) with
  | Throw e1, Throw e2 => e1 = e2
  | Normal r1, Normal r2 =>
      Rev1.parser kebabCase (inr r1) = pattern
      /\ parser kebabCase (inr r2) = pattern
  | _, _ => False
  end.
Proof.
  pose proof (BuilderFacts.range_literal_spec pattern) as Hspec.
  cbn [Rev1.range Rev1.builder range builder]. unfold throw, ret.
  destruct (range_literal pattern) eqn:Hlit; cbn [negb fst]; [|reflexivity].
  destruct (range_cardinality pattern) as [[body c]|] eqn:Hcard; cbn [fst].
  - split; [reflexivity|].
    unfold range_cardinality in Hcard.
    destruct (JsFacts.snoc_cases pattern) as [-> | (b & ch & ->)];
      [discriminate Hcard|].
    rewrite JsFacts.slice_last, JsFacts.slice_init in Hcard.
    rewrite parser_range.
    destruct (String.eqb_spec (String ch EmptyString) "?") as [E|_];
      [injection E as ->; injection Hcard as <- <-; reflexivity|].
    destruct (String.eqb_spec (String ch EmptyString) "*") as [E|_];
      [injection E as ->; injection Hcard as <- <-; reflexivity|].
    destruct (String.eqb_spec (String ch EmptyString) "+") as [E|_];
      [injection E as ->; injection Hcard as <- <-; reflexivity|].
    discriminate Hcard.
  - split; [reflexivity|]. rewrite parser_range. apply JsFacts.app_empty_r.
Qed.

End SerializerProperties.

(** ** The further properties at concrete inputs *)

Lemma sequenceA_with_root_reachable : reachable sequenceA_with_root.
Proof.
  apply (reachable_root
           (fun r => ret (sequence r [inr (ref r "sequenceA"); inl "c"]))
           dev sequenceA_only); [|reflexivity].
  apply (reachable_define "sequenceA"
           (fun r => ret (sequence r [inl "a"; inl "b"]))
           dev new_Grammar); [constructor | reflexivity].
Qed.


Lemma root_finalizes_for_good_witness :
  completed
    (root (fun r => ret (sequence r [inr (ref r "sequenceA"); inl "c"]))
       sequenceA_only dev)
  = Normal sequenceA_with_root
  /\ exists e,
      completed
        (define "test" (fun r => ret (sequence r [inl "c"; inl "d"]))
           sequenceA_with_root dev)
      = Throw e.
Proof.
  split; [reflexivity|].
  exact (proj1
           (proj1
              (root_finalizes_for_good KebabAscii.kebabCase
                 (fun r => ret (sequence r [inr (ref r "sequenceA"); inl "c"]))
                 sequenceA_only sequenceA_with_root dev eq_refl)
              "test" (fun r => ret (sequence r [inl "c"; inl "d"])) dev)).
Defined.


Lemma reachable_names_unique_witness :
  reachable sequenceA_with_root
  /\ NoDup (map fst (rules sequenceA_with_root)).
Proof.
  split; [exact sequenceA_with_root_reachable|].
  exact (proj1 (reachable_names_unique sequenceA_with_root
                  sequenceA_with_root_reachable)).
Defined.

Lemma range_round_trip_witness :
  fst (range builder "[^\n]*" dev)
  = Normal (rangeRuleType "[^\n]" (Some ruleCardinality.zeroOrMore))
  /\ exists body c,
      rangeRuleType "[^\n]" (Some ruleCardinality.zeroOrMore)
      = rangeRuleType body c
      /\ "[^\n]*" = body ++ cardinalityChar c
      /\ Spec.begins_with body "["
      /\ Spec.ends_with body "]"
      /\ parser KebabAscii.kebabCase
           (inr (rangeRuleType "[^\n]" (Some ruleCardinality.zeroOrMore)))
         = "[^\n]*".
Proof.
  split; [reflexivity|].
  exact (range_round_trip KebabAscii.kebabCase "[^\n]*" dev
           (rangeRuleType "[^\n]" (Some ruleCardinality.zeroOrMore)) eq_refl).
Defined.

Lemma range_rejects_short_patterns_witness :
  String.length "[" < 2
  /\ fst (range builder "[" dev) = Throw {| message := range_error "[" |}.
Proof.
  split; [cbn; lia|].
  exact (range_rejects_short_patterns "[" dev ltac:(cbn; lia)).
Defined.

Lemma rendering_parentheses_paired_witness :
  leaves_satisfy KebabAscii.kebabCase parens_even parenthesized_leaves = true
  /\ Spec.occurrences "("
       (parser KebabAscii.kebabCase (inr parenthesized_leaves))
     = Spec.occurrences ")"
         (parser KebabAscii.kebabCase (inr parenthesized_leaves)).
Proof.
  split; [reflexivity|].
  exact (rendering_parentheses_paired KebabAscii.kebabCase
           parenthesized_leaves eq_refl).
Defined.

Lemma build_one_line_per_entry_witness :
  (forall name r,
      In (name, r) (rules sequenceA_with_root) ->
      no_newline (KebabAscii.kebabCase name) = true
      /\ leaves_satisfy KebabAscii.kebabCase no_newline r = true)
  /\ exists text,
      completed (build KebabAscii.kebabCase sequenceA_with_root dev)
      = Normal text
      /\ S (Spec.occurrences
              (Ascii false true false true false false false false) text)
         = List.length (rules sequenceA_with_root).
Proof.
  assert (H : forall name r,
             In (name, r) (rules sequenceA_with_root) ->
             no_newline (KebabAscii.kebabCase name) = true
             /\ leaves_satisfy KebabAscii.kebabCase no_newline r = true).
  { intros name r [[= <- <-] | [[= <- <-] | []]]; split; reflexivity. }
  split; [exact H|]. eexists. split; [reflexivity|].
  exact (build_one_line_per_entry KebabAscii.kebabCase sequenceA_with_root dev
           _ eq_refl H).
Defined.

(** ** [build] across the revisions *)

Module UpgradeFacts.
Import JsObject.

Section MapValues.
Context {V W : Type} (f : V -> W).

Lemma hasOwn_map (o : JsObject.t V) key :
  hasOwn (map (on_value f) o) key = hasOwn o key.
Proof.
  unfold hasOwn. induction o as [|[k v] o IH]; cbn; [reflexivity|].
  now rewrite IH.
Qed.

Lemma insert_index_map n e (l : list (N * (string * V))) :
  insert_index n (on_value f e) (map (on_indexed f) l)
  = map (on_indexed f) (insert_index n e l).
Proof.
  induction l as [|[m e'] l IH]; cbn; [reflexivity|].
  destruct (n <=? m)%N; cbn; [reflexivity|]. now rewrite IH.
Qed.

Lemma index_entries_map (o : JsObject.t V) :
  index_entries (map (on_value f) o) = map (on_indexed f) (index_entries o).
Proof.
  induction o as [|[k v] o IH]; cbn; [reflexivity|].
  destruct (array_index k); [|exact IH].
  rewrite IH. apply (insert_index_map _ (k, v)).
Qed.

(** [Object.entries] enumerates by keys only: it commutes with any change
    of the values. *)
Lemma entries_map (o : JsObject.t V) :
  entries (map (on_value f) o) = map (on_value f) (entries o).
Proof.
  unfold entries, string_entries.
  rewrite index_entries_map, map_app, !map_map. f_equal.
  induction o as [|[k v] o IH]; cbn; [reflexivity|].
  destruct (is_array_index k); cbn; [exact IH | now rewrite IH].
Qed.

End MapValues.
End UpgradeFacts.

Section BuildAcrossRevisions.

Variable kebabCase : string -> string.

Lemma build_line_upgrade (entry : string * Rev1.rule) :
  build_line kebabCase (on_value upgrade entry)
  = Rev1.build_line kebabCase entry.
Proof.
  destruct entry as [name r]. unfold build_line, Rev1.build_line, on_value.
  cbn [fst snd]. now rewrite parser_agrees_with_earlier_revision.
Qed.

Lemma build_lines_upgrade (g : Rev1.Grammar) :
  map (build_line kebabCase) (JsObject.entries (rules (upgrade_grammar g)))
  = map (Rev1.build_line kebabCase) (JsObject.entries (Rev1.rules g)).
Proof.
  unfold upgrade_grammar. cbn [rules].
  rewrite UpgradeFacts.entries_map, map_map.
  apply map_ext. apply build_line_upgrade.
Qed.

(** X14.  [build] of the current revision completes on a registry of the
    revision without cardinality exactly as [build] of that revision did:
    the same error without a root, the same text with one. *)
Theorem build_agrees_with_earlier_revision (g : Rev1.Grammar) (env : Env) :
  completed (build kebabCase (upgrade_grammar g) env)
  = Rev1.build kebabCase g.
Proof.
  unfold build, Rev1.build.
  replace (JsObject.hasOwn (rules (upgrade_grammar g)) "root")
    with (JsObject.hasOwn (Rev1.rules g) "root")
    by (symmetry; apply UpgradeFacts.hasOwn_map).
  destruct (JsObject.hasOwn (Rev1.rules g) "root"); cbn [negb completed];
    [|reflexivity].
  now rewrite build_lines_upgrade.
Qed.

End BuildAcrossRevisions.



Lemma cardinality_last_wins_witness :
  fst (apply_cardinality ruleCardinality.optional builder
         (refRuleType "testRef" (Some ruleCardinality.zeroOrMore)) dev)
  = Normal (refRuleType "testRef" (Some ruleCardinality.optional))
  /\ ruleCardinalityKey (refRuleType "testRef" (Some ruleCardinality.optional))
     = Some ruleCardinality.optional.
Proof.
  split; [reflexivity|].
  exact (proj1
           (proj2 (cardinality_last_wins ruleCardinality.oneOrMore
                     ruleCardinality.optional
                     (refRuleType "testRef" (Some ruleCardinality.zeroOrMore))
                     dev)
              (refRuleType "testRef" (Some ruleCardinality.optional))
              eq_refl)).
Defined.
